(** * The etcd client selector of rpcx (clientselector/etcd_selector.go)

    A shallow embedding of [EtcdClientSelector]: the registry pull, the
    watch loop, the connection cache and [Select], followed by the
    properties of the selector that the specification states.

    Conventions of the embedding.
    - A Go [int] is a [Z]; slice indices produced by [range] are [nat].
    - A pointer [*core.Client] is an [option core_Client]; [None] is [nil].
      Two handles are the same pointer iff they are the same number.
    - A Go [map] is a [gmap]; reading a missing key gives the zero value.
    - A method is a computation in the monad [M]: it reads and writes the
      selector, may panic, and emits the calls it makes to its
      collaborators (registry get, dial, close, ping) as a list of
      [Effect]s, oldest first.
    - What the collaborators answer is an argument of the method that asks
      ([answer] for the registry get, [dial] for the dialer, [rnd] for the
      random source, [order] for the iteration order of a [range] over a
      map), so every property below holds whatever they answer.
    - Locks are not modelled: each method runs alone. *)

From Stdlib Require Import ZArith QArith Ascii String.
From stdpp Require Import base gmap list strings fin_maps sorting.

Set Warnings "-register-all".

Local Open Scope string_scope.
Local Open Scope list_scope.
Local Open Scope Z_scope.

(** ** Strings *)

Fixpoint strip_prefix (prefix s : string) : option string :=
  match prefix with
  | EmptyString => Some s
  | String a prefix' =>
      match s with
      | EmptyString => None
      | String b s' => if Ascii.eqb a b then strip_prefix prefix' s' else None
      end
  end.

(** [strings.TrimPrefix(s, prefix)]: [s] without the leading [prefix], or
    [s] itself when it does not start with [prefix]. *)
Definition TrimPrefix (s prefix : string) : string :=
  default s (strip_prefix prefix s).

(** [strings.Split(s, sep)] for a separator of one character: the pieces of
    [s] between the occurrences of [sep]; one piece more than there are
    separators, so never empty. *)
Fixpoint Split (s : string) (sep : ascii) : list string :=
  match s with
  | EmptyString => [EmptyString]
  | String c s' =>
      if Ascii.eqb c sep then EmptyString :: Split s' sep
      else match Split s' sep with
           | piece :: pieces => String c piece :: pieces
           | [] => [String c EmptyString]
           end
  end.

Fixpoint contains (s : string) (c : ascii) : bool :=
  match s with
  | EmptyString => false
  | String c' s' => Ascii.eqb c' c || contains s' c
  end.

Definition at_sign : ascii := "@"%char.

(** ** Data of the collaborators *)

(** Identity of a [core.Client]; a [*core.Client] is an [option] of it. *)
Definition core_Client := nat.

(** A Go [error] carries its message. *)
Definition error := string.

(** [url.Values], as far as [Get] can tell: the pairs in the order they
    were parsed. *)
Definition url_Values := list (string * string).

(** [url.Values.Get]: the first value of the key, or the empty string. *)
Fixpoint Values_Get (v : url_Values) (key : string) : string :=
  match v with
  | [] => ""
  | (k, x) :: v' => if String.eqb k key then x else Values_Get v' key
  end.

(** [client.Node] of the etcd client. *)
Inductive client_Node : Type :=
  mkNode (Key : string) (Value : string) (Dir : bool) (Nodes : list client_Node).

Definition Key (n : client_Node) : string := let (k, _, _, _) := n in k.
Definition Value (n : client_Node) : string := let (_, v, _, _) := n in v.
Definition Dir (n : client_Node) : bool := let (_, _, d, _) := n in d.
Definition Nodes (n : client_Node) : list client_Node := let (_, _, _, ns) := n in ns.

(** [client.Response]: the action tag and a pointer to the node. *)
Record client_Response := mkResponse {
  Action : string;
  Node : option client_Node
}.

(** What [KeysAPI.Get] and [Watcher.Next] return: [(resp, err)]. *)
Definition GetAnswer : Type := option client_Response * option error.

(** What [rpcx.NewDirectRPCClient] returns: [(c, err)]. *)
Definition DialAnswer : Type := option core_Client * option error.
Definition Dialer : Type := string -> string -> DialAnswer.

(** [Weighted], the record of the weighted strategies. *)
Record Weighted := mkWeighted {
  Server : string;
  Weight : Z;
  EffectiveWeight : Z
}.

(** [rpcx.SelectMode]. *)
Inductive rpcx_SelectMode :=
  | RandomSelect | RoundRobin | WeightedRoundRobin | WeightedICMP
  | ConsistentHash | Closest | OtherMode (n : Z).

#[global] Instance rpcx_SelectMode_eq_dec : EqDecision rpcx_SelectMode.
Proof. solve_decision. Defined.

(** The functions the selector calls and that are not its own: the Go
    library ([url.ParseQuery], [strconv.Atoi], [net.SplitHostPort]) and
    the other files of the package ([Ping], [CalculateWeight],
    [nextWeighted], [JumpConsistentHash], the distance of
    [getClosestServer], [SelectMode.String]). *)
Class Externals := {
  float64 : Type;
  Arg : Type;
  (** [url.ParseQuery]: [None] when it returns an error. *)
  ParseQuery : string -> option url_Values;
  (** [strconv.Atoi]: [None] when it returns an error. *)
  Atoi : string -> option Z;
  (** the host of [net.SplitHostPort]. *)
  SplitHostPort : string -> string;
  (** the round-trip time [Ping] reports for a host. *)
  Ping : string -> Z;
  CalculateWeight : Z -> Z;
  (** [nextWeighted]: the chosen record ([None] is [nil]) and the records
      with the weights it has updated in place. *)
  nextWeighted : list (option Weighted) -> option Weighted * list (option Weighted);
  JumpConsistentHash : Z -> list Arg -> Z;
  (** the great-circle distance from a point to the coordinates declared
      in a metadata value; [None] when they are absent or unparseable. *)
  distanceFrom : float64 -> float64 -> string -> option Q;
  SelectMode_String : rpcx_SelectMode -> string
}.

(** ** The monad of the methods *)

(** A call a method makes to a collaborator. *)
Inductive Effect :=
  | EvGet (path : string)
  | EvDial (network address : string)
  | EvClose (c : core_Client)
  | EvPing (host : string)
  | EvLog (msg : string).

#[global] Instance Effect_eq_dec : EqDecision Effect.
Proof. solve_decision. Defined.

(** A method returns normally or panics. *)
Inductive Outcome (A : Type) :=
  | Done (a : A)
  | Panic (msg : string).
Arguments Done {A} a.
Arguments Panic {A} msg.

Definition index_out_of_range : string := "index out of range".
Definition nil_dereference : string := "invalid memory address or nil pointer dereference".
Definition invalid_Intn : string := "invalid argument to Intn".

Section Selector.
Context `{Ext : Externals}.

(** The fields of [EtcdClientSelector] that the methods below read or
    write. [EtcdServers], [KeysAPI], [sessionTimeout], [dailTimeout],
    [Client] and [rnd] belong to the collaborators, [clientRWMutex] to the
    locking. *)
Record EtcdClientSelector := mkSelector {
  BasePath : string;
  Servers : list string;
  Group : string;
  clientAndServer : gmap string (option core_Client);
  metadata : gmap string string;
  Latitude : float64;
  Longitude : float64;
  WeightedServers : list (option Weighted);
  SelectMode : rpcx_SelectMode;
  currentServer : Z;
  len : Z;
  HashServiceAndArgs : option (Z -> list Arg -> Z)
}.

Definition with_Servers (x : list string) (s : EtcdClientSelector) :=
  mkSelector (BasePath s) x (Group s) (clientAndServer s) (metadata s)
    (Latitude s) (Longitude s) (WeightedServers s) (SelectMode s)
    (currentServer s) (len s) (HashServiceAndArgs s).

Definition with_clientAndServer (x : gmap string (option core_Client)) (s : EtcdClientSelector) :=
  mkSelector (BasePath s) (Servers s) (Group s) x (metadata s)
    (Latitude s) (Longitude s) (WeightedServers s) (SelectMode s)
    (currentServer s) (len s) (HashServiceAndArgs s).

Definition with_metadata (x : gmap string string) (s : EtcdClientSelector) :=
  mkSelector (BasePath s) (Servers s) (Group s) (clientAndServer s) x
    (Latitude s) (Longitude s) (WeightedServers s) (SelectMode s)
    (currentServer s) (len s) (HashServiceAndArgs s).

Definition with_WeightedServers (x : list (option Weighted)) (s : EtcdClientSelector) :=
  mkSelector (BasePath s) (Servers s) (Group s) (clientAndServer s) (metadata s)
    (Latitude s) (Longitude s) x (SelectMode s)
    (currentServer s) (len s) (HashServiceAndArgs s).

Definition with_SelectMode (x : rpcx_SelectMode) (s : EtcdClientSelector) :=
  mkSelector (BasePath s) (Servers s) (Group s) (clientAndServer s) (metadata s)
    (Latitude s) (Longitude s) (WeightedServers s) x
    (currentServer s) (len s) (HashServiceAndArgs s).

Definition with_currentServer (x : Z) (s : EtcdClientSelector) :=
  mkSelector (BasePath s) (Servers s) (Group s) (clientAndServer s) (metadata s)
    (Latitude s) (Longitude s) (WeightedServers s) (SelectMode s)
    x (len s) (HashServiceAndArgs s).

Definition with_len (x : Z) (s : EtcdClientSelector) :=
  mkSelector (BasePath s) (Servers s) (Group s) (clientAndServer s) (metadata s)
    (Latitude s) (Longitude s) (WeightedServers s) (SelectMode s)
    (currentServer s) x (HashServiceAndArgs s).

Definition with_HashServiceAndArgs (x : option (Z -> list Arg -> Z)) (s : EtcdClientSelector) :=
  mkSelector (BasePath s) (Servers s) (Group s) (clientAndServer s) (metadata s)
    (Latitude s) (Longitude s) (WeightedServers s) (SelectMode s)
    (currentServer s) (len s) x.

Definition M (A : Type) : Type :=
  EtcdClientSelector -> Outcome (A * EtcdClientSelector * list Effect).

Definition ret {A} (a : A) : M A := fun s => Done (a, s, []).

Definition bind {A B} (m : M A) (k : A -> M B) : M B :=
  fun s =>
    match m s with
    | Panic msg => Panic msg
    | Done (a, s1, l1) =>
        match k a s1 with
        | Panic msg => Panic msg
        | Done (b, s2, l2) => Done (b, s2, l1 ++ l2)
        end
    end.

Definition this : M EtcdClientSelector := fun s => Done (s, s, []).
Definition modify (f : EtcdClientSelector -> EtcdClientSelector) : M unit :=
  fun s => Done (tt, f s, []).
Definition emit (e : Effect) : M unit := fun s => Done (tt, s, [e]).
Definition panic {A} (msg : string) : M A := fun _ => Panic msg.

End Selector.

Notation "x <- c1 ;; c2" := (bind c1 (fun x => c2))
  (at level 20, c1 at level 99, c2 at level 200, only parsing).
Notation "c1 ;; c2" := (bind c1 (fun _ => c2))
  (at level 100, c2 at level 200, only parsing, right associativity).

(** ** The methods of the selector *)

Section Methods.
Context `{Ext : Externals}.

(** [l[i]] for an [int] index: out of range panics. *)
Definition index {A} (l : list A) (i : Z) : M A :=
  if (i <? 0) || (Z.of_nat (length l) <=? i) then panic index_out_of_range
  else match l !! Z.to_nat i with
       | Some x => ret x
       | None => panic index_out_of_range
       end.

(** [append(l[0:k], l[k+1:]...)]: slicing from [k+1] panics past the end. *)
Definition remove_at {A} (k : nat) (l : list A) : M (list A) :=
  if (k <? length l)%nat then ret (delete k l) else panic index_out_of_range.

(** An [int] of 64 bits after an addition: the sum wraps around. *)
Definition wrap_int (z : Z) : Z := (z + 2 ^ 63) mod 2 ^ 64 - 2 ^ 63.

(** [rnd.Intn(n)]: panics unless [0 < n]; [rnd] is the number drawn. *)
Definition Intn (rnd n : Z) : M Z :=
  if n <=? 0 then panic invalid_Intn else ret (rnd mod n).

(** [m[k]] on the connection cache: [nil] for a missing key. *)
Definition cached (m : gmap string (option core_Client)) (k : string) : option core_Client :=
  default None (m !! k).

(** [c.Close()]: the receiver is dereferenced. *)
Definition Close (c : option core_Client) : M unit :=
  match c with
  | Some h => emit (EvClose h)
  | None => panic nil_dereference
  end.

(** The key of a node below the base path:
    [strings.TrimPrefix(n.Key, s.BasePath+"/")]. *)
Definition serverKey (s : EtcdClientSelector) (n : client_Node) : string :=
  TrimPrefix (Key n) (BasePath s +:+ "/").

(** One turn of the loop of [removeInactiveServers], at [i]. *)
Definition removeInactiveServer (inactiveServers : list nat) (i : nat) : M unit :=
  match inactiveServers !! i with
  | None => panic index_out_of_range
  | Some k =>
      s <- this ;;
      removedServer <- index (Servers s) (Z.of_nat k) ;;
      servers <- remove_at k (Servers s) ;;
      modify (with_Servers servers) ;;
      s <- this ;;
      weighted <- remove_at k (WeightedServers s) ;;
      modify (with_WeightedServers weighted) ;;
      s <- this ;;
      let c := cached (clientAndServer s) removedServer in
      match c with
      | Some _ =>
          modify (with_clientAndServer (delete removedServer (clientAndServer s))) ;;
          Close c
      | None => ret tt
      end
  end.

(** [for ; i >= 0; i--] with [i] one less than [n]. *)
Fixpoint removeInactiveServers_from (inactiveServers : list nat) (n : nat) : M unit :=
  match n with
  | O => ret tt
  | S i =>
      removeInactiveServer inactiveServers i ;;
      removeInactiveServers_from inactiveServers i
  end.

Definition removeInactiveServers (inactiveServers : list nat) : M unit :=
  removeInactiveServers_from inactiveServers (length inactiveServers).

(** [s.WeightedServers[i] = w]. *)
Definition setWeighted (i : nat) (w : Weighted) : M unit :=
  s <- this ;;
  if (i <? length (WeightedServers s))%nat
  then modify (with_WeightedServers (<[i := Some w]> (WeightedServers s)))
  else panic index_out_of_range.

(** [s.WeightedServers[i].Weight = weight] and the same for
    [EffectiveWeight]. *)
Definition setWeights (i : nat) (weight : Z) : M unit :=
  s <- this ;;
  match WeightedServers s !! i with
  | None => panic index_out_of_range
  | Some None => panic nil_dereference
  | Some (Some w) =>
      modify (with_WeightedServers
                (<[i := Some (mkWeighted (Server w) weight weight)]> (WeightedServers s)))
  end.

(** The test of [createWeighted] that marks a record inactive. *)
Definition inactive (s : EtcdClientSelector) (v : url_Values) : bool :=
  let state := Values_Get v "state" in
  let group := Values_Get v "group" in
  (negb (String.eqb state "") && negb (String.eqb state "active"))
  || negb (String.eqb (Group s) group).

(** The body of [for i, n := range nodes]; [inactiveServers] is the local
    slice, returned as it is after the turn. *)
Definition createWeightedNode (i : nat) (n : client_Node) (inactiveServers : list nat)
  : M (list nat) :=
  s <- this ;;
  let key := serverKey s n in
  setWeighted i (mkWeighted key 1 1) ;;
  modify (fun s => with_metadata (<[key := Value n]> (metadata s)) s) ;;
  match ParseQuery (Value n) with
  | Some v =>
      let w := Values_Get v "weight" in
      let inactiveServers' :=
        if inactive s v then inactiveServers ++ [i] else inactiveServers in
      (if String.eqb w "" then ret tt
       else match Atoi w with
            | Some weight => setWeights i weight
            | None => ret tt
            end) ;;
      ret inactiveServers'
  | None => ret inactiveServers
  end.

Fixpoint createWeighted_range (i : nat) (nodes : list client_Node)
    (inactiveServers : list nat) : M (list nat) :=
  match nodes with
  | [] => ret inactiveServers
  | n :: nodes' =>
      inactiveServers' <- createWeightedNode i n inactiveServers ;;
      createWeighted_range (S i) nodes' inactiveServers'
  end.

Definition createWeighted (nodes : list client_Node) : M unit :=
  s <- this ;;
  modify (with_WeightedServers (replicate (length (Servers s)) None)) ;;
  inactiveServers <- createWeighted_range 0 nodes [] ;;
  removeInactiveServers inactiveServers.

(** The body of the loop that sets the weights from the ping, at [i]. *)
Definition pingWeighted (i : nat) (w : option Weighted) : M unit :=
  match w with
  | None => panic nil_dereference
  | Some w =>
      let ss := Split (Server w) at_sign in
      ss1 <- index ss 1 ;;
      let host := SplitHostPort ss1 in
      emit (EvPing host) ;;
      let rtt := CalculateWeight (Ping host) in
      s <- this ;;
      modify (with_WeightedServers
                (<[i := Some (mkWeighted (Server w) rtt rtt)]> (WeightedServers s)))
  end.

Fixpoint pingWeighted_range (i : nat) (ws : list (option Weighted)) : M unit :=
  match ws with
  | [] => ret tt
  | w :: ws' => pingWeighted i w ;; pingWeighted_range (S i) ws'
  end.

(** [pullServers]; [answer] is what [KeysAPI.Get] returns. *)
Definition pullServers (answer : GetAnswer) : M unit :=
  s <- this ;;
  emit (EvGet (BasePath s)) ;;
  match answer with
  | (_, Some err) => ret tt
  | (None, None) => panic nil_dereference
  | (Some resp, None) =>
      match Node resp with
      | None => ret tt
      | Some node =>
          if (0 <? length (Nodes node))%nat then
            let servers := map (serverKey s) (Nodes node) in
            modify (with_Servers servers) ;;
            createWeighted (Nodes node) ;;
            s <- this ;;
            (if decide (SelectMode s = WeightedICMP)
             then pingWeighted_range 0 (WeightedServers s)
             else ret tt) ;;
            s <- this ;;
            let n := Z.of_nat (length (Servers s)) in
            modify (with_len n) ;;
            if 0 <? n
            then modify (fun s => with_currentServer (Z.rem (currentServer s) n) s)
            else ret tt
          else
            modify (with_clientAndServer ∅)
      end
  end.

(** [getCachedClient]; [dial] is [rpcx.NewDirectRPCClient] with the
    selector's client, codec and timeout. *)
Definition getCachedClient (dial : Dialer) (server : string) : M DialAnswer :=
  s <- this ;;
  let c := cached (clientAndServer s) server in
  match c with
  | Some _ => ret (c, None)
  | None =>
      let ss := Split server at_sign in
      ss0 <- index ss 0 ;;
      ss1 <- index ss 1 ;;
      emit (EvDial ss0 ss1) ;;
      let '(c, err) := dial ss0 ss1 in
      modify (with_clientAndServer (<[server := c]> (clientAndServer s))) ;;
      ret (c, err)
  end.

(** The body of the loop of [AllClients]; [clients] is the local slice. *)
Definition dialServer (dial : Dialer) (sv : string) (clients : list (option core_Client))
  : M (list (option core_Client)) :=
  let ss := Split sv at_sign in
  ss0 <- index ss 0 ;;
  ss1 <- index ss 1 ;;
  emit (EvDial ss0 ss1) ;;
  let '(c, err) := dial ss0 ss1 in
  match err with
  | Some e => emit (EvLog ("rpc client connect server failed: " +:+ e)) ;; ret clients
  | None => ret (clients ++ [c])
  end.

Fixpoint AllClients_range (dial : Dialer) (servers : list string)
    (clients : list (option core_Client)) : M (list (option core_Client)) :=
  match servers with
  | [] => ret clients
  | sv :: servers' =>
      clients' <- dialServer dial sv clients ;;
      AllClients_range dial servers' clients'
  end.

Definition AllClients (dial : Dialer) : M (list (option core_Client)) :=
  s <- this ;;
  AllClients_range dial (Servers s) [].

(** [SetSelectMode]. *)
Definition SetSelectMode (sm : rpcx_SelectMode) : M unit :=
  modify (with_SelectMode sm).

(** The body of the loop of [HandleFailedClient], for the entry [(k, v)]:
    it returns whether the loop goes on, and it never does. *)
Definition handleFailedEntry (client : option core_Client) (k : string)
    (v : option core_Client) : M bool :=
  (if decide (v = client)
   then modify (fun s => with_clientAndServer (delete k (clientAndServer s)) s)
   else ret tt) ;;
  Close client ;;
  ret false.

(** A [range] over the entries of a map, in the order [entries], with a
    body that says whether to go on. *)
Fixpoint range_entries {V} (body : string -> V -> M bool) (entries : list (string * V))
  : M unit :=
  match entries with
  | [] => ret tt
  | (k, v) :: entries' =>
      continue <- body k v ;;
      if continue then range_entries body entries' else ret tt
  end.

(** [HandleFailedClient]; [order] is the order in which the [range] visits
    the entries of [clientAndServer]. *)
Definition HandleFailedClient (order : list (string * option core_Client))
    (client : option core_Client) : M unit :=
  range_entries (handleFailedEntry client) order.

(** Modelled from the spec: [getClosestServer] is in a file of the package
    that is not among the sources. It keeps the addresses whose metadata
    declares valid coordinates and returns those at the least distance
    from [(lat, lon)]; with no valid coordinates the result is empty. *)
Definition getClosestServer (lat lon : float64) (metadata : gmap string string)
  : list string :=
  let candidates :=
    omap (fun kv : string * string =>
            match distanceFrom lat lon kv.2 with
            | Some d => Some (kv.1, d)
            | None => None
            end) (map_to_list metadata) in
  match candidates with
  | [] => []
  | c :: cs =>
      let least := foldl (fun m c' => if Qle_bool (snd c') m then snd c' else m) (snd c) cs in
      map fst (List.filter (fun c' => Qeq_bool (snd c') least) candidates)
  end.

(** [Select]; [dial] is the dialer, [rnd] the number the random source
    draws, [options] the arguments of the call. *)
Definition Select (dial : Dialer) (rnd : Z) (options : list Arg) : M DialAnswer :=
  s <- this ;;
  if len s =? 0 then ret (None, Some "No available service")
  else
    match SelectMode s with
    | RandomSelect =>
        i <- Intn rnd (len s) ;;
        modify (with_currentServer i) ;;
        server <- index (Servers s) i ;;
        getCachedClient dial server
    | RoundRobin =>
        let i := Z.rem (wrap_int (currentServer s + 1)) (len s) in
        modify (with_currentServer i) ;;
        server <- index (Servers s) i ;;
        getCachedClient dial server
    | ConsistentHash =>
        let hash := default JumpConsistentHash (HashServiceAndArgs s) in
        modify (with_HashServiceAndArgs (Some hash)) ;;
        let i := hash (len s) options in
        modify (with_currentServer i) ;;
        server <- index (Servers s) i ;;
        getCachedClient dial server
    | WeightedRoundRobin | WeightedICMP =>
        let '(w, weighted) := nextWeighted (WeightedServers s) in
        modify (with_WeightedServers weighted) ;;
        match w with
        | None => panic nil_dereference
        | Some w => getCachedClient dial (Server w)
        end
    | Closest =>
        let closestServers := getClosestServer (Latitude s) (Longitude s) (metadata s) in
        selected <- Intn rnd (Z.of_nat (length closestServers)) ;;
        server <- index closestServers selected ;;
        getCachedClient dial server
    | OtherMode _ =>
        ret (None, Some ("not supported SelectMode: " +:+ SelectMode_String (SelectMode s)))
    end.

(** What the loop of [watch] does with one notification [res]; [answer] is
    what the registry returns if it is asked now. *)
Definition watchNotification (res : client_Response) (answer : GetAnswer) : M unit :=
  if String.eqb (Action res) "expire" then
    pullServers answer ;;
    match Node res with
    | None => panic nil_dereference
    | Some node =>
        if negb (Dir node) then
          s <- this ;;
          let removedServer := serverKey s node in
          modify (with_clientAndServer (delete removedServer (clientAndServer s)))
        else ret tt
    end
  else if String.eqb (Action res) "set" || String.eqb (Action res) "update" then
    pullServers answer
  else if String.eqb (Action res) "delete" then
    pullServers answer
  else ret tt.

(** [watch] over the notifications that arrive: each comes with what the
    registry answers at that time. The loop ends at the first error of
    the stream. *)
Fixpoint watch (stream : list (GetAnswer * GetAnswer)) : M unit :=
  match stream with
  | [] => ret tt
  | ((_, Some err), _) :: _ => ret tt
  | ((None, None), _) :: _ => panic nil_dereference
  | ((Some res, None), answer) :: stream' =>
      watchNotification res answer ;;
      watch stream'
  end.

(** The operations of the selector, each with what its collaborators
    answer, and what running one does to the selector. *)
Inductive Operation :=
  | OpPullServers (answer : GetAnswer)
  | OpCreateWeighted (nodes : list client_Node)
  | OpRemoveInactiveServers (inactiveServers : list nat)
  | OpWatch (stream : list (GetAnswer * GetAnswer))
  | OpSelect (dial : Dialer) (rnd : Z) (options : list Arg)
  | OpGetCachedClient (dial : Dialer) (server : string)
  | OpHandleFailedClient (order : list (string * option core_Client))
      (client : option core_Client)
  | OpAllClients (dial : Dialer)
  | OpSetSelectMode (sm : rpcx_SelectMode).

Definition run (op : Operation) : M unit :=
  match op with
  | OpPullServers answer => pullServers answer
  | OpCreateWeighted nodes => createWeighted nodes
  | OpRemoveInactiveServers inactiveServers => removeInactiveServers inactiveServers
  | OpWatch stream => watch stream
  | OpSelect dial rnd options => Select dial rnd options ;; ret tt
  | OpGetCachedClient dial server => getCachedClient dial server ;; ret tt
  | OpHandleFailedClient order client => HandleFailedClient order client
  | OpAllClients dial => AllClients dial ;; ret tt
  | OpSetSelectMode sm => SetSelectMode sm
  end.

(** The children of the node a get returns; none when the get fails. *)
Definition children (answer : GetAnswer) : list client_Node :=
  match answer with
  | (Some resp, None) =>
      match Node resp with
      | Some node => Nodes node
      | None => []
      end
  | _ => []
  end.

(** A get that fails: it returns an error, or a response without node. *)
Definition failed (answer : GetAnswer) : Prop :=
  match answer with
  | (_, Some _) => True
  | (Some resp, None) => Node resp = None
  | (None, None) => False
  end.

End Methods.

(** ** The vocabulary of the properties *)

Section Vocabulary.
Context `{Ext : Externals}.

(** [wp partial m Q s]: run from [s], the method [m] returns with [Q]; when
    [partial] is [true] it may also panic. *)
Definition wp {A} (partial : bool) (m : M A)
    (Q : A -> EtcdClientSelector -> list Effect -> Prop) (s : EtcdClientSelector) : Prop :=
  match m s with
  | Done (a, s', l) => Q a s' l
  | Panic _ => partial = true
  end.

(** The address and the weighted sequences match: same length, and the
    record at each place is there and carries the address of that place. *)
Definition aligned (s : EtcdClientSelector) : Prop :=
  Forall2 (fun w sv => Server <$> w = Some sv) (WeightedServers s) (Servers s).

(** The indices [createWeighted] hands to [removeInactiveServers]: strictly
    increasing and below [n]. *)
Definition increasing_below (n : nat) (l : list nat) : Prop :=
  StronglySorted lt l /\ Forall (fun k => (k < n)%nat) l.

(** Whether [createWeighted] marks the record of a node inactive. *)
Definition excluded (s : EtcdClientSelector) (n : client_Node) : bool :=
  match ParseQuery (Value n) with
  | Some v => inactive s v
  | None => false
  end.

(** The places of the flags that are set, counted from [i]. *)
Fixpoint indices_from (i : nat) (flags : list bool) : list nat :=
  match flags with
  | [] => []
  | flag :: flags' => (if flag then [i] else []) ++ indices_from (S i) flags'
  end.

(** The addresses of the nodes of a listing that are not marked inactive,
    in the order of the listing. *)
Definition listed (s : EtcdClientSelector) (nodes : list client_Node) : list string :=
  map (serverKey s) (List.filter (fun n => negb (excluded s n)) nodes).

(** The settings that no pull touches. *)
Definition same_settings (s s' : EtcdClientSelector) : Prop :=
  BasePath s' = BasePath s /\ Group s' = Group s /\ SelectMode s' = SelectMode s.

(** The metadata after the loop over [nodes]: one insertion per node, in
    order. *)
Definition recorded (s : EtcdClientSelector) (nodes : list client_Node)
    (m : gmap string string) : gmap string string :=
  foldl (fun m n => <[serverKey s n := Value n]> m) m nodes.

(** [keeps R m]: whenever [m] returns, the selector it leaves is related
    by [R] to the one it started from. *)
Definition keeps (R : relation EtcdClientSelector) {A} (m : M A) : Prop :=
  forall s, wp true m (fun _ s' _ => R s s') s.

Definition metadata_same : relation EtcdClientSelector :=
  fun s s' => metadata s' = metadata s.

Definition metadata_grows : relation EtcdClientSelector :=
  fun s s' => dom (metadata s) ⊆ dom (metadata s').

End Vocabulary.

Arguments wp : simpl never.

(** ** More vocabulary: what a pull builds and what it evicts *)

Section Built.
Context `{Ext : Externals}.

(** The weight a node declares: the integer under [weight] in its value,
    and 1 when the value does not parse, has no weight, or has one that is
    no integer. *)
Definition declaredWeight (n : client_Node) : Z :=
  match ParseQuery (Value n) with
  | Some v =>
      let w := Values_Get v "weight" in
      if String.eqb w "" then 1 else default 1 (Atoi w)
  | None => 1
  end.

(** The record [createWeighted] builds for a node. *)
Definition declared (s : EtcdClientSelector) (n : client_Node) : Weighted :=
  mkWeighted (serverKey s n) (declaredWeight n) (declaredWeight n).

(** The nodes of a listing that are not marked inactive, and those that
    are. *)
Definition kept (s : EtcdClientSelector) (nodes : list client_Node) : list client_Node :=
  List.filter (fun n => negb (excluded s n)) nodes.

Definition dropped (s : EtcdClientSelector) (nodes : list client_Node) : list client_Node :=
  List.filter (excluded s) nodes.

(** The part of a server key after the first separator, which the dial
    and the ping take as the address. *)
Definition addressOf (server : string) : string :=
  match Split server at_sign with
  | _ :: address :: _ => address
  | _ => ""
  end.

Definition networkOf (server : string) : string :=
  match Split server at_sign with
  | network :: _ => network
  | [] => ""
  end.

(** The record the ping loop leaves for an address. *)
Definition pinged (server : string) : Weighted :=
  let rtt := CalculateWeight (Ping (SplitHostPort (addressOf server))) in
  mkWeighted server rtt rtt.

(** The addresses at the places [ks] of a sequence. *)
Definition placed (servers : list string) (ks : list nat) : list string :=
  omap (fun k => servers !! k) ks.

(** [evicted keys m m' l]: going from the cache [m] to [m'] with the
    effects [l] has evicted the addresses [keys] and closed what they held:
    no key of [keys] has a connection left, every other entry is as it
    was, and [l] closes exactly the connections the keys had. *)
Definition evicted (keys : list string) (m m' : gmap string (option core_Client))
    (l : list Effect) : Prop :=
  (forall key, key ∈ keys -> cached m' key = None) /\
  (forall key, key ∉ keys -> m' !! key = m !! key) /\
  (forall e, e ∈ l -> exists h, e = EvClose h) /\
  (forall h, EvClose h ∈ l <-> exists key, key ∈ keys /\ cached m key = Some h).

(** A selector as a pull leaves it, ready for [Select]: the length is the
    number of addresses and fits an [int], the cursor is not negative, and
    every address has the separator. *)
Definition ready (s : EtcdClientSelector) : Prop :=
  len s = Z.of_nat (length (Servers s)) /\ len s < 2 ^ 63 /\
  0 <= currentServer s /\
  Forall (fun server => contains server at_sign = true) (Servers s).

(** What [AllClients] returns and emits for the addresses [servers]. *)
Definition dialed (dial : Dialer) (servers : list string) : list (option core_Client) :=
  omap (fun server =>
          match dial (networkOf server) (addressOf server) with
          | (c, None) => Some c
          | (_, Some _) => None
          end) servers.

Definition dialing (dial : Dialer) (servers : list string) : list Effect :=
  flat_map (fun server =>
              EvDial (networkOf server) (addressOf server) ::
              match dial (networkOf server) (addressOf server) with
              | (_, Some e) => [EvLog ("rpc client connect server failed: " +:+ e)]
              | (_, None) => []
              end) servers.

(** What [getCachedClient] does for an address with the separator: the
    cached connection if there is one, else one dial whose result it
    stores and returns. *)
Definition served (dial : Dialer) (server : string) (s : EtcdClientSelector)
  : Outcome (DialAnswer * EtcdClientSelector * list Effect) :=
  match cached (clientAndServer s) server with
  | Some h => Done ((Some h, None), s, [])
  | None =>
      let r := dial (networkOf server) (addressOf server) in
      Done (r, with_clientAndServer (<[server := r.1]> (clientAndServer s)) s,
            [EvDial (networkOf server) (addressOf server)])
  end.

(** [Select] called once for each element of [calls], in order. *)
Fixpoint SelectAll (calls : list (Dialer * Z * list Arg)) : M (list DialAnswer) :=
  match calls with
  | [] => ret []
  | (dial, rnd, options) :: calls' =>
      r <- Select dial rnd options ;;
      rs <- SelectAll calls' ;;
      ret (r :: rs)
  end.

(** The notifications of a stream that make the watch loop pull. *)
Definition pulls (action : string) : bool :=
  String.eqb action "expire" || String.eqb action "set" ||
  String.eqb action "update" || String.eqb action "delete".

Definition isGet (e : Effect) : bool :=
  match e with EvGet _ => true | _ => false end.

(** [silent m]: the effects of [m] include no registry get. *)
Definition silent {A} (m : M A) : Prop :=
  forall s, wp true m (fun _ _ l => List.filter isGet l = []) s.

End Built.

(** ** A sample of the collaborators

    An instance of [Externals] on which the methods run: queries without
    escapes, integral coordinates, and stand-ins for the ping, the weighted
    step and the hash. The properties below do not depend on it; it serves
    the examples. *)

Definition digit (c : ascii) : option Z :=
  let n := Z.of_nat (nat_of_ascii c) in
  if (48 <=? n) && (n <=? 57) then Some (n - 48) else None.

Fixpoint digits (s : string) (acc : Z) : option Z :=
  match s with
  | EmptyString => Some acc
  | String c s' =>
      match digit c with
      | Some d => digits s' (10 * acc + d)
      | None => None
      end
  end.

Definition sample_Atoi (s : string) : option Z :=
  match s with
  | EmptyString => None
  | String c s' =>
      if Ascii.eqb c "-" then
        match s' with EmptyString => None | _ => Z.opp <$> digits s' 0 end
      else if Ascii.eqb c "+" then
        match s' with EmptyString => None | _ => digits s' 0 end
      else digits s 0
  end.

(** The text before the first [sep] and the text after it. *)
Fixpoint cut (s : string) (sep : ascii) : string * string :=
  match s with
  | EmptyString => (EmptyString, EmptyString)
  | String c s' =>
      if Ascii.eqb c sep then (EmptyString, s')
      else let '(before, after) := cut s' sep in (String c before, after)
  end.

Definition sample_ParseQuery (query : string) : option url_Values :=
  if contains query "%" || contains query ";" || contains query "+" then None
  else Some (omap (fun piece : string =>
                     match piece with
                     | EmptyString => None
                     | _ => Some (cut piece "=")
                     end) (Split query "&")).

Definition sample_distanceFrom (lat lon : Z) (value : string) : option Q :=
  match sample_ParseQuery value with
  | None => None
  | Some v =>
      match sample_Atoi (Values_Get v "latitude"), sample_Atoi (Values_Get v "longitude") with
      | Some a, Some b => Some (inject_Z ((lat - a) * (lat - a) + (lon - b) * (lon - b)))
      | _, _ => None
      end
  end.

Definition sample_String (sm : rpcx_SelectMode) : string :=
  match sm with
  | RandomSelect => "RandomSelect"
  | RoundRobin => "RoundRobin"
  | WeightedRoundRobin => "WeightedRoundRobin"
  | WeightedICMP => "WeightedICMP"
  | ConsistentHash => "ConsistentHash"
  | Closest => "Closest"
  | OtherMode _ => "SelectMode"
  end.

#[global] Instance sample : Externals := {|
  float64 := Z;
  Arg := string;
  ParseQuery := sample_ParseQuery;
  Atoi := sample_Atoi;
  SplitHostPort := fun hostport => (cut hostport ":").1;
  Ping := fun _ => 10;
  CalculateWeight := fun rtt => 200 - rtt;
  nextWeighted := fun ws => (mjoin (head ws), ws);
  JumpConsistentHash := fun _ _ => 0;
  distanceFrom := sample_distanceFrom;
  SelectMode_String := sample_String
|}.

(** A selector on the sample, as [NewEtcdClientSelector] leaves it before
    the first pull, and with some servers and connections. *)
Definition fresh (sm : rpcx_SelectMode) : EtcdClientSelector :=
  mkSelector "/rpcx/Arith" [] "" ∅ ∅ (0 : Z) (0 : Z) [] sm 0 0 None.

Definition server_a : string := "tcp@10.0.0.1:8972".
Definition server_b : string := "tcp@10.0.0.2:8972".

Definition leaf (key value : string) : client_Node := mkNode key value false [].

Definition listing (nodes : list client_Node) : GetAnswer :=
  (Some (mkResponse "get" (Some (mkNode "/rpcx/Arith" "" true nodes))), None).

Definition refused : Dialer := fun _ _ => (None, Some "connection refused").
Definition connects (h : core_Client) : Dialer := fun _ _ => (Some h, None).

(** The selector after a pull has listed [server_a] and [server_b] and two
    calls of [Select] have connected to them. *)
Definition serving : EtcdClientSelector :=
  mkSelector "/rpcx/Arith" [server_a; server_b] ""
    (<[server_a := Some 1%nat]> (<[server_b := Some 2%nat]> ∅))
    (<[server_a := ""]> (<[server_b := ""]> ∅)) (0 : Z) (0 : Z)
    [Some (mkWeighted server_a 1 1); Some (mkWeighted server_b 1 1)]
    RoundRobin 0 2 None.

Definition key_a : string := "/rpcx/Arith/tcp@10.0.0.1:8972".
Definition key_b : string := "/rpcx/Arith/tcp@10.0.0.2:8972".

(** The selector after a pull has listed one server under a key without
    separator. *)
Definition bare_key : string := "10.0.0.1:8972".
Definition unseparated : EtcdClientSelector :=
  mkSelector "/rpcx/Arith" [bare_key] "" ∅ (<[bare_key := ""]> ∅) (0 : Z) (0 : Z)
    [Some (mkWeighted bare_key 1 1)] RoundRobin 0 1 None.

(** The selector in the closest mode after a pull has listed one server
    whose metadata declares a weight and no coordinates. *)
Definition uncharted : EtcdClientSelector :=
  mkSelector "/rpcx/Arith" [server_a] "" ∅ (<[server_a := "weight=2"]> ∅) (0 : Z) (0 : Z)
    [Some (mkWeighted server_a 2 2)] Closest 0 1 None.

(** [serving] after a pull that lists [server_b] alone. *)
Definition serving_b : EtcdClientSelector :=
  with_len 1 (with_WeightedServers [Some (mkWeighted server_b 1 1)]
                (with_Servers [server_b] serving)).

(** The result of a method, its final selector and its effects. *)
Definition result {A} (o : Outcome (A * EtcdClientSelector * list Effect)) : option A :=
  match o with Done (a, _, _) => Some a | Panic _ => None end.
Definition after {A} (o : Outcome (A * EtcdClientSelector * list Effect))
  : option EtcdClientSelector :=
  match o with Done (_, s, _) => Some s | Panic _ => None end.
Definition effects {A} (o : Outcome (A * EtcdClientSelector * list Effect)) : list Effect :=
  match o with Done (_, _, l) => l | Panic _ => [] end.

(** ** Reasoning about the methods *)

Section Reasoning.
Context `{Ext : Externals}.

Lemma wp_bind {A B} b (m : M A) (k : A -> M B) Q s :
  wp b m (fun a s1 l1 => wp b (k a) (fun c s2 l2 => Q c s2 (l1 ++ l2)) s1) s ->
  wp b (bind m k) Q s.
Proof.
  unfold wp, bind. destruct (m s) as [[[a s1] l1]|]; [|done].
  destruct (k a s1) as [[[c s2] l2]|]; done.
Qed.

Lemma wp_ret {A} b (a : A) (Q : A -> EtcdClientSelector -> list Effect -> Prop) s :
  Q a s [] -> wp b (ret a) Q s.
Proof. done. Qed.

Lemma wp_this b (Q : EtcdClientSelector -> EtcdClientSelector -> list Effect -> Prop) s :
  Q s s [] -> wp b this Q s.
Proof. done. Qed.

Lemma wp_modify b f (Q : unit -> EtcdClientSelector -> list Effect -> Prop) s :
  Q tt (f s) [] -> wp b (modify f) Q s.
Proof. done. Qed.

Lemma wp_emit b e (Q : unit -> EtcdClientSelector -> list Effect -> Prop) s :
  Q tt s [e] -> wp b (emit e) Q s.
Proof. done. Qed.

Lemma wp_panic {A} msg (Q : A -> EtcdClientSelector -> list Effect -> Prop) s :
  wp true (panic msg) Q s.
Proof. done. Qed.

Lemma wp_mono {A} b (m : M A) (Q Q' : A -> EtcdClientSelector -> list Effect -> Prop) s :
  wp b m Q s -> (forall a s' l, Q a s' l -> Q' a s' l) -> wp b m Q' s.
Proof. unfold wp. destruct (m s) as [[[a s1] l1]|]; auto. Qed.

Lemma wp_partial {A} b (m : M A) (Q : A -> EtcdClientSelector -> list Effect -> Prop) s :
  wp false m Q s -> wp b m Q s.
Proof. unfold wp. destruct (m s) as [[[a s1] l1]|]; [done|discriminate]. Qed.

Lemma wp_Done {A} b (m : M A) (Q : A -> EtcdClientSelector -> list Effect -> Prop) s a s' l :
  wp b m Q s -> m s = Done (a, s', l) -> Q a s' l.
Proof. unfold wp. intros H E. by rewrite E in H. Qed.

Lemma wp_returns {A} (m : M A) (Q : A -> EtcdClientSelector -> list Effect -> Prop) s :
  wp false m Q s -> exists a s' l, m s = Done (a, s', l) /\ Q a s' l.
Proof. unfold wp. destruct (m s) as [[[a s1] l1]|]; [eauto 6|discriminate]. Qed.

Lemma bind_Done {A B} (m : M A) (k : A -> M B) s c s2 l :
  bind m k s = Done (c, s2, l) ->
  exists a s1 l1 l2, m s = Done (a, s1, l1) /\ k a s1 = Done (c, s2, l2) /\ l = l1 ++ l2.
Proof.
  unfold bind. destruct (m s) as [[[a s1] l1]|]; [|done].
  destruct (k a s1) as [[[c' s2'] l2]|] eqn:E; [|done].
  intros [= -> -> <-]. eauto 8.
Qed.

Lemma bind_Panic {A B} (m : M A) (k : A -> M B) s msg :
  m s = Panic msg -> bind m k s = Panic msg.
Proof. unfold bind. by intros ->. Qed.

Lemma bind_eq {A B} (m : M A) (k : A -> M B) s a s1 l1 :
  m s = Done (a, s1, l1) ->
  bind m k s = match k a s1 with
               | Panic msg => Panic msg
               | Done (c, s2, l2) => Done (c, s2, l1 ++ l2)
               end.
Proof. unfold bind. by intros ->. Qed.

Ltac wp_step :=
  lazymatch goal with
  | |- wp _ (bind _ _) _ _ => apply wp_bind
  | |- wp _ this _ _ => apply wp_this
  | |- wp _ (modify _) _ _ => apply wp_modify
  | |- wp _ (emit _) _ _ => apply wp_emit
  | |- wp _ (ret _) _ _ => apply wp_ret
  end.

Ltac wp_go := repeat wp_step; cbn beta.

Lemma wp_index {A} b (l : list A) (k : nat) x Q s :
  l !! k = Some x -> Q x s [] -> wp b (index l (Z.of_nat k)) Q s.
Proof.
  intros Hk HQ. unfold index. pose proof (lookup_lt_Some _ _ _ Hk).
  destruct (Z.ltb_spec (Z.of_nat k) 0); [lia|].
  destruct (Z.leb_spec (Z.of_nat (length l)) (Z.of_nat k)); [lia|].
  cbn. rewrite Nat2Z.id, Hk. by apply wp_ret.
Qed.

Lemma wp_remove_at {A} b (k : nat) (l : list A) Q s :
  (k < length l)%nat -> Q (delete k l) s [] -> wp b (remove_at k l) Q s.
Proof.
  intros Hk HQ. unfold remove_at.
  destruct (Nat.ltb_spec k (length l)); [by apply wp_ret|lia].
Qed.

Lemma same_settings_refl s : same_settings s s.
Proof. done. Qed.

Lemma same_settings_trans s1 s2 s3 :
  same_settings s1 s2 -> same_settings s2 s3 -> same_settings s1 s3.
Proof. unfold same_settings. intros (? & ? & ?) (? & ? & ?). repeat split; congruence. Qed.

(** *** [removeInactiveServers] *)

Lemma increasing_below_snoc n l k :
  increasing_below n (l ++ [k]) -> increasing_below k l /\ (k < n)%nat.
Proof.
  intros [Hs Hb]. apply Forall_app in Hb as [Hb Hk].
  rewrite Forall_singleton in Hk. split; [|done]. split.
  - clear Hb. induction l as [|x l IH]; [constructor|].
    cbn in Hs. apply StronglySorted_inv in Hs as [Hs Hx].
    constructor; [by apply IH|]. apply Forall_app in Hx as [Hx _]. done.
  - clear Hb. induction l as [|x l IH]; [constructor|].
    cbn in Hs. apply StronglySorted_inv in Hs as [Hs Hx].
    constructor; [|by apply IH]. apply Forall_app in Hx as [_ Hx].
    by rewrite Forall_singleton in Hx.
Qed.

Lemma increasing_below_weaken n m l :
  (n <= m)%nat -> increasing_below n l -> increasing_below m l.
Proof.
  intros Hnm [Hs Hb]. split; [done|].
  eapply Forall_impl; [exact Hb|]. cbn. lia.
Qed.

Lemma increasing_below_app n l :
  increasing_below n l -> increasing_below (S n) (l ++ [n]).
Proof.
  intros [Hs Hb]. split.
  - clear -Hs Hb. induction l as [|x l IH]; cbn.
    + repeat constructor.
    + apply StronglySorted_inv in Hs as [Hs Hx].
      apply Forall_cons in Hb as [Hxn Hb].
      constructor; [by apply IH|]. apply Forall_app. split; [done|].
      by apply Forall_singleton.
  - apply Forall_app. split.
    + eapply Forall_impl; [exact Hb|]. cbn. lia.
    + apply Forall_singleton. lia.
Qed.

(** One turn removes the place [k] from both sequences, closes the
    connection of the removed address if there is one, and leaves the
    metadata alone. *)
Lemma wp_removeInactiveServer b inactiveServers i k s :
  inactiveServers !! i = Some k ->
  (k < length (Servers s))%nat ->
  length (WeightedServers s) = length (Servers s) ->
  wp b (removeInactiveServer inactiveServers i)
    (fun _ s' _ =>
       Servers s' = delete k (Servers s) /\
       WeightedServers s' = delete k (WeightedServers s) /\
       metadata s' = metadata s /\ same_settings s s') s.
Proof.
  intros Hi Hk Hlen. unfold removeInactiveServer. rewrite Hi.
  destruct (lookup_lt_is_Some_2 (Servers s) k Hk) as [sv Hsv].
  wp_go. eapply wp_index; [exact Hsv|].
  wp_go. apply wp_remove_at; [done|].
  wp_go. apply wp_remove_at; [cbn; lia|].
  wp_go. cbn.
  destruct (cached _ sv) as [h|]; wp_go; cbn; done.
Qed.

Lemma wp_removeInactiveServers_from b inactiveServers n s :
  (n <= length inactiveServers)%nat ->
  increasing_below (length (Servers s)) (take n inactiveServers) ->
  aligned s ->
  wp b (removeInactiveServers_from inactiveServers n)
    (fun _ s' _ =>
       aligned s' /\ metadata s' = metadata s /\ same_settings s s' /\
       Servers s' = foldr delete (Servers s) (take n inactiveServers)) s.
Proof.
  revert s. induction n as [|i IH]; intros s Hn Hinc Hal; cbn.
  - by apply wp_ret.
  - destruct (lookup_lt_is_Some_2 inactiveServers i) as [k Hk]; [lia|].
    rewrite (take_S_r _ _ _ Hk) in Hinc |- *.
    apply increasing_below_snoc in Hinc as [Hinc Hlt].
    wp_go. eapply wp_mono.
    { apply (wp_removeInactiveServer b _ _ k); [done|done|].
      by apply Forall2_length in Hal. }
    cbn. intros _ s1 l1 (HS & HW & HM & HB).
    eapply wp_mono.
    { apply IH; [lia| |].
      - rewrite HS, length_delete by (by apply lookup_lt_is_Some_2).
        eapply increasing_below_weaken; [|exact Hinc]. lia.
      - unfold aligned. rewrite HS, HW. by apply Forall2_delete. }
    cbn. intros _ s2 l2 (Hal2 & HM2 & HB2 & HS2).
    split; [done|]. split; [congruence|]. split; [by eapply same_settings_trans|].
    rewrite HS2, HS, foldr_app. done.
Qed.

Lemma wp_removeInactiveServers b inactiveServers s :
  increasing_below (length (Servers s)) inactiveServers ->
  aligned s ->
  wp b (removeInactiveServers inactiveServers)
    (fun _ s' _ =>
       aligned s' /\ metadata s' = metadata s /\ same_settings s s' /\
       Servers s' = foldr delete (Servers s) inactiveServers) s.
Proof.
  intros Hinc Hal. unfold removeInactiveServers.
  eapply wp_mono.
  { apply wp_removeInactiveServers_from; [done| |done]. by rewrite firstn_all. }
  cbn. intros _ s' _ (? & ? & ? & HS). rewrite firstn_all in HS. done.
Qed.

(** *** [createWeighted] *)

Lemma serverKey_BasePath s s' n :
  same_settings s s' -> serverKey s' n = serverKey s n.
Proof. unfold serverKey. by intros [-> _]. Qed.

Lemma excluded_settings s s' n :
  same_settings s s' -> excluded s' n = excluded s n.
Proof.
  intros (_ & HG & _). unfold excluded, inactive. by rewrite HG.
Qed.

Lemma wp_createWeightedNode b i n inactiveServers s :
  (i < length (WeightedServers s))%nat ->
  wp b (createWeightedNode i n inactiveServers)
    (fun inactiveServers' s' l =>
       l = [] /\ Servers s' = Servers s /\ same_settings s s' /\
       clientAndServer s' = clientAndServer s /\
       metadata s' = <[serverKey s n := Value n]> (metadata s) /\
       (exists w, Server w = serverKey s n /\
                  WeightedServers s' = <[i := Some w]> (WeightedServers s)) /\
       inactiveServers' = inactiveServers ++ (if excluded s n then [i] else [])) s.
Proof.
  intros Hi. unfold createWeightedNode, setWeighted, excluded.
  wp_go. destruct (Nat.ltb_spec i (length (WeightedServers s))); [|lia].
  wp_go. cbn.
  destruct (ParseQuery (Value n)) as [v|]; wp_go; cbn.
  - assert (Hin : forall l0 : list nat,
               (if inactive s v then l0 ++ [i] else l0)
               = l0 ++ (if inactive s v then [i] else []))
      by (intros l0; destruct (inactive s v); by rewrite ?app_nil_r).
    destruct (String.eqb _ "").
    { wp_go. cbn. repeat (split; [done|]).
      split; [eexists; split; [|reflexivity]; reflexivity|apply Hin]. }
    destruct (Atoi _) as [weight|].
    2: { wp_go. cbn. repeat (split; [done|]).
         split; [eexists; split; [|reflexivity]; reflexivity|apply Hin]. }
    unfold setWeights. wp_go. cbn.
    rewrite list_lookup_insert_eq by done.
    wp_go. cbn. rewrite list_insert_insert_eq.
    repeat (split; [done|]). split; [|apply Hin].
    eexists; split; [|reflexivity]; reflexivity.
  - repeat (split; [done|]).
    split; [eexists; split; [|reflexivity]; reflexivity|by rewrite app_nil_r].
Qed.

Lemma recorded_cons s n nodes m :
  recorded s (n :: nodes) m = recorded s nodes (<[serverKey s n := Value n]> m).
Proof. done. Qed.

Lemma wp_createWeighted_range b nodes : forall i inactiveServers s,
  length (WeightedServers s) = length (Servers s) ->
  (i <= length (Servers s))%nat ->
  drop i (Servers s) = map (serverKey s) nodes ->
  Forall2 (fun w sv => Server <$> w = Some sv)
    (take i (WeightedServers s)) (take i (Servers s)) ->
  increasing_below i inactiveServers ->
  wp b (createWeighted_range i nodes inactiveServers)
    (fun inactiveServers' s' l =>
       l = [] /\ aligned s' /\
       increasing_below (length (Servers s')) inactiveServers' /\
       Servers s' = Servers s /\ same_settings s s' /\
       clientAndServer s' = clientAndServer s /\
       metadata s' = recorded s nodes (metadata s) /\
       inactiveServers' = inactiveServers ++ indices_from i (map (excluded s) nodes)) s.
Proof.
  induction nodes as [|n nodes IH]; intros i inact s Hlen Hle Hdrop Hpre Hinc; cbn.
  - apply wp_ret.
    assert (i = length (Servers s)) as ->.
    { apply (f_equal length) in Hdrop. rewrite length_drop in Hdrop. cbn in Hdrop. lia. }
    rewrite !take_ge in Hpre by lia. rewrite app_nil_r. done.
  - assert (Servers s !! i = Some (serverKey s n)) as Hsv.
    { rewrite <- (Nat.add_0_r i), <- lookup_drop, Hdrop. done. }
    pose proof (lookup_lt_Some _ _ _ Hsv) as Hi.
    wp_go. eapply wp_mono; [apply wp_createWeightedNode; lia|].
    cbn. intros inact' s1 l1 (-> & HS & HB & HC & HM & (w & Hw & HW) & Hin).
    eapply wp_mono.
    { apply IH.
      - rewrite HW, HS, length_insert. done.
      - rewrite HS. lia.
      - rewrite HS. replace (S i) with (i + 1)%nat by lia.
        rewrite <- drop_drop, Hdrop. cbn.
        apply map_ext. intros n'. symmetry. by apply serverKey_BasePath.
      - rewrite HS, HW.
        rewrite (take_S_r _ _ (Some w)) by (apply list_lookup_insert_eq; lia).
        rewrite (take_S_r _ _ _ Hsv), take_insert_ge by lia.
        apply Forall2_app; [done|]. constructor; [|constructor]. cbn. by rewrite Hw.
      - rewrite Hin. destruct (excluded s n).
        + by apply increasing_below_app.
        + rewrite app_nil_r. eapply increasing_below_weaken; [|exact Hinc]. lia. }
    cbn. intros inact2 s2 l2 (-> & Hal & Hinc2 & HS2 & HB2 & HC2 & HM2 & Hin2).
    assert (Hrec : forall m, recorded s1 nodes m = recorded s nodes m).
    { unfold recorded. clear -HB.
      induction nodes as [|n' nodes IHn]; intros m; cbn; [done|].
      rewrite (serverKey_BasePath s s1) by done. apply IHn. }
    split; [done|]. split; [done|]. split; [done|].
    split; [congruence|]. split; [by eapply same_settings_trans|].
    split; [congruence|]. split; [rewrite HM2, HM, Hrec; done|].
    rewrite Hin2, Hin, <- app_assoc. do 3 f_equal.
    apply map_ext. intros n'. by apply excluded_settings.
Qed.

Lemma foldr_delete_shift {A} (x : A) l ks :
  foldr delete (x :: l) (map S ks) = x :: foldr delete l ks.
Proof. induction ks as [|k ks IH]; cbn; [done|]. by rewrite IH. Qed.

Lemma indices_from_S i flags :
  indices_from (S i) flags = map S (indices_from i flags).
Proof.
  revert i. induction flags as [|flag flags IH]; intros i; cbn; [done|].
  rewrite map_app, IH. by destruct flag.
Qed.

(** Deleting, from the last to the first, the places whose flag is set
    leaves the elements whose flag is not set. *)
Lemma foldr_delete_indices {A B} (f : A -> B) (p : A -> bool) (xs : list A) :
  foldr delete (map f xs) (indices_from 0 (map p xs))
  = map f (List.filter (fun x => negb (p x)) xs).
Proof.
  induction xs as [|x xs IH]; cbn; [done|].
  rewrite foldr_app, indices_from_S, foldr_delete_shift, IH.
  by destruct (p x).
Qed.

Lemma wp_createWeighted b nodes s :
  Servers s = map (serverKey s) nodes ->
  wp b (createWeighted nodes)
    (fun _ s' _ =>
       aligned s' /\ same_settings s s' /\
       metadata s' = recorded s nodes (metadata s) /\
       Servers s' = listed s nodes) s.
Proof.
  intros HS. unfold createWeighted. wp_go.
  set (s0 := with_WeightedServers _ s).
  eapply wp_mono.
  { apply (wp_createWeighted_range b nodes 0 [] s0).
    - subst s0. cbn. by rewrite length_replicate.
    - lia.
    - subst s0. cbn. exact HS.
    - rewrite !take_0. constructor.
    - split; constructor. }
  cbn. intros inact s1 l1 (-> & Hal & Hinc & HS1 & HB1 & HC1 & HM1 & Hin1).
  eapply wp_mono; [by apply wp_removeInactiveServers|].
  cbn. intros _ s2 l2 (Hal2 & HM2 & HB2 & HS2).
  split; [done|]. split; [by eapply same_settings_trans|].
  split; [rewrite HM2, HM1; done|].
  rewrite HS2, HS1, Hin1. subst s0. cbn. rewrite HS.
  apply foldr_delete_indices.
Qed.

(** *** The weights from the ping *)

Lemma wp_pingWeighted_range ws : forall i s,
  aligned s ->
  drop i (WeightedServers s) = ws ->
  wp true (pingWeighted_range i ws)
    (fun _ s' _ =>
       aligned s' /\ same_settings s s' /\ metadata s' = metadata s /\
       Servers s' = Servers s) s.
Proof.
  induction ws as [|w ws IH]; intros i s Hal Hdrop; cbn.
  - by apply wp_ret.
  - assert (WeightedServers s !! i = Some w) as Hw.
    { rewrite <- (Nat.add_0_r i), <- lookup_drop, Hdrop. done. }
    wp_go. unfold pingWeighted. destruct w as [w|]; [|apply wp_panic].
    wp_go. unfold index.
    destruct ((1 <? 0) || (Z.of_nat (length (Split (Server w) at_sign)) <=? 1));
      [apply wp_panic|].
    destruct (Split (Server w) at_sign !! Z.to_nat 1) as [ss1|]; [|apply wp_panic].
    wp_go. cbn.
    set (s1 := with_WeightedServers _ s).
    assert (aligned s1) as Hal1.
    { unfold aligned in *. subst s1. cbn.
      destruct (Forall2_lookup_l _ _ _ _ _ Hal Hw) as (sv & Hsv & Hr).
      rewrite <- (list_insert_id (Servers s) i sv Hsv).
      apply Forall2_insert; [done|]. exact Hr. }
    eapply wp_mono.
    { apply (IH (S i) s1 Hal1). subst s1. cbn.
      rewrite drop_insert_lt by lia.
      replace (S i) with (i + 1)%nat by lia. rewrite <- drop_drop, Hdrop. done. }
    cbn. intros _ s2 l2 (Hal2 & HB2 & HM2 & HS2). done.
Qed.

(** *** [pullServers] *)

Lemma wp_pullServers b answer s :
  b = true \/ (SelectMode s <> WeightedICMP /\ answer <> (None, None)) ->
  aligned s \/ children answer <> [] ->
  wp b (pullServers answer)
    (fun _ s' _ =>
       aligned s' /\ same_settings s s' /\
       metadata s' = recorded s (children answer) (metadata s) /\
       Servers s' = match children answer with
                    | [] => Servers s
                    | nodes => listed s nodes
                    end) s.
Proof.
  intros Hb Hal. unfold pullServers. wp_go.
  assert (children answer = [] -> aligned s) as Hal' by (by destruct Hal).
  destruct answer as [[resp|] [err|]]; cbn in *;
    try (by wp_go; split; [auto|done]).
  2: { destruct Hb as [->|[_ ?]]; [apply wp_panic|done]. }
  destruct (Node resp) as [node|]; [|by wp_go; split; [auto|done]].
  destruct (Nodes node) as [|n nodes] eqn:Hn; [by wp_go; split; [auto|done]|].
  cbn [length Nat.ltb Nat.leb]. wp_go.
  set (s0 := with_Servers _ s).
  eapply wp_mono; [apply (wp_createWeighted b (n :: nodes) s0); done|].
  cbn. intros _ s1 l1 (Hal1 & HB1 & HM1 & HS1).
  wp_go.
  assert (wp b (if decide (SelectMode s1 = WeightedICMP)
                then pingWeighted_range 0 (WeightedServers s1) else ret tt)
            (fun _ s' _ => aligned s' /\ same_settings s1 s' /\
                           metadata s' = metadata s1 /\ Servers s' = Servers s1) s1)
    as Hping.
  { destruct (decide _) as [Hicmp|_]; [|by wp_go].
    destruct Hb as [->|[Hno _]].
    - by apply wp_pingWeighted_range.
    - destruct HB1 as (_ & _ & HSM). cbn in HSM. congruence. }
  eapply wp_mono; [exact Hping|].
  cbn. intros _ s2 l2 (Hal2 & HB2 & HM2 & HS2).
  wp_go.
  assert (same_settings s s2) as HB.
  { eapply same_settings_trans; [|exact HB2].
    eapply same_settings_trans; [|exact HB1]. done. }
  assert (metadata s2 = recorded s (n :: nodes) (metadata s)) as HM.
  { rewrite HM2, HM1. done. }
  assert (Servers s2 = listed s (n :: nodes)) as HS.
  { rewrite HS2, HS1. done. }
  destruct (0 <? _); wp_go; cbn; done.
Qed.

(** *** What a method leaves as it is *)

#[local] Instance metadata_same_preorder : PreOrder metadata_same.
Proof.
  split; unfold metadata_same.
  - by intros s.
  - intros s1 s2 s3. congruence.
Qed.

#[local] Instance metadata_grows_preorder : PreOrder metadata_grows.
Proof.
  split; unfold metadata_grows.
  - intros s. set_solver.
  - intros s1 s2 s3. set_solver.
Qed.

Section Keeps.
Context (R : relation EtcdClientSelector) `{!PreOrder R}.

Lemma keeps_ret {A} (a : A) : keeps R (ret a).
Proof. intros s. apply wp_ret. reflexivity. Qed.

Lemma keeps_this : keeps R this.
Proof. intros s. apply wp_this. reflexivity. Qed.

Lemma keeps_emit e : keeps R (emit e).
Proof. intros s. apply wp_emit. reflexivity. Qed.

Lemma keeps_panic {A} msg : keeps R (@panic _ A msg).
Proof. intros s. apply wp_panic. Qed.

Lemma keeps_modify f : (forall s, R s (f s)) -> keeps R (modify f).
Proof. intros Hf s. by apply wp_modify. Qed.

Lemma keeps_bind {A B} (m : M A) (k : A -> M B) :
  keeps R m -> (forall a, keeps R (k a)) -> keeps R (bind m k).
Proof.
  intros Hm Hk s. apply wp_bind. eapply wp_mono; [apply Hm|].
  cbn. intros a s1 l1 H1. eapply wp_mono; [apply Hk|].
  cbn. intros c s2 l2 H2. by etrans.
Qed.

End Keeps.

Lemma keeps_impl (R R' : relation EtcdClientSelector) {A} (m : M A) :
  (forall s s', R s s' -> R' s s') -> keeps R m -> keeps R' m.
Proof. intros HR Hm s. eapply wp_mono; [apply Hm|]. cbn. auto. Qed.

Lemma keeps_Done (R : relation EtcdClientSelector) {A} (m : M A) s a s' l :
  keeps R m -> m s = Done (a, s', l) -> R s s'.
Proof. intros Hm E. exact (wp_Done _ _ _ _ _ _ _ (Hm s) E). Qed.

Create HintDb keeps.

Ltac keeps_step :=
  lazymatch goal with
  | |- keeps _ (bind _ _) => apply keeps_bind; [tc_solve| |intros ?]
  | |- keeps _ this => apply keeps_this; tc_solve
  | |- keeps _ (ret _) => apply keeps_ret; tc_solve
  | |- keeps _ (emit _) => apply keeps_emit; tc_solve
  | |- keeps _ (panic _) => apply keeps_panic
  | |- keeps _ (modify _) =>
      apply keeps_modify; intros ?;
      first [done | unfold metadata_grows; cbn; set_solver]
  | |- keeps _ (match ?x with _ => _ end) => destruct x
  | |- keeps _ _ => solve [eauto with keeps]
  end.

Ltac keeps_go := repeat keeps_step.

Lemma keeps_index R `{!PreOrder R} {A} (l : list A) i : keeps R (index l i).
Proof. unfold index. keeps_go. Qed.

Lemma keeps_remove_at R `{!PreOrder R} {A} k (l : list A) : keeps R (remove_at k l).
Proof. unfold remove_at. keeps_go. Qed.

Lemma keeps_Intn R `{!PreOrder R} rnd n : keeps R (Intn rnd n).
Proof. unfold Intn. keeps_go. Qed.

Lemma keeps_Close R `{!PreOrder R} c : keeps R (Close c).
Proof. unfold Close. keeps_go. Qed.

Hint Resolve keeps_index keeps_remove_at keeps_Intn keeps_Close : keeps.
Hint Extern 1 (PreOrder _) => tc_solve : keeps.

Lemma keeps_removeInactiveServers inactiveServers :
  keeps metadata_same (removeInactiveServers inactiveServers).
Proof.
  unfold removeInactiveServers. generalize (length inactiveServers).
  intros n. induction n as [|i IH]; cbn; [keeps_go|].
  apply keeps_bind; [tc_solve| |intros _; exact IH].
  unfold removeInactiveServer. keeps_go.
Qed.

Lemma keeps_getCachedClient dial server :
  keeps metadata_same (getCachedClient dial server).
Proof. unfold getCachedClient. keeps_go. Qed.

Lemma keeps_AllClients dial : keeps metadata_same (AllClients dial).
Proof.
  unfold AllClients. apply keeps_bind; [tc_solve|keeps_go|intros s].
  generalize (@nil (option core_Client)).
  induction (Servers s) as [|sv servers IH]; intros clients; cbn; [keeps_go|].
  apply keeps_bind; [tc_solve| |intros clients'; apply IH].
  unfold dialServer. keeps_go.
Qed.

Lemma keeps_HandleFailedClient order client :
  keeps metadata_same (HandleFailedClient order client).
Proof.
  unfold HandleFailedClient.
  induction order as [|[k v] order IH]; cbn; [keeps_go|].
  apply keeps_bind; [tc_solve| |intros [|]; [exact IH|keeps_go]].
  unfold handleFailedEntry. keeps_go.
Qed.

Hint Resolve keeps_getCachedClient : keeps.

Lemma keeps_Select dial rnd options :
  keeps metadata_same (Select dial rnd options).
Proof. unfold Select. keeps_go. Qed.

Lemma keeps_SetSelectMode sm : keeps metadata_same (SetSelectMode sm).
Proof. unfold SetSelectMode. keeps_go. Qed.

Lemma keeps_same_grows {A} (m : M A) :
  keeps metadata_same m -> keeps metadata_grows m.
Proof.
  apply keeps_impl. unfold metadata_same, metadata_grows. intros s s' ->. done.
Qed.

Lemma keeps_createWeighted nodes : keeps metadata_grows (createWeighted nodes).
Proof.
  unfold createWeighted.
  apply keeps_bind; [tc_solve|keeps_go|intros s].
  apply keeps_bind; [tc_solve|keeps_go|intros _].
  apply keeps_bind; [tc_solve| |intros l; apply keeps_same_grows, keeps_removeInactiveServers].
  generalize (@nil nat). generalize 0%nat.
  induction nodes as [|n nodes IH]; intros i l; cbn; [keeps_go|].
  apply keeps_bind; [tc_solve| |intros l'; apply IH].
  unfold createWeightedNode, setWeighted, setWeights. keeps_go.
Qed.

Lemma keeps_pingWeighted_range ws : forall i,
  keeps metadata_grows (pingWeighted_range i ws).
Proof.
  induction ws as [|w ws IH]; intros i; cbn; [keeps_go|].
  apply keeps_bind; [tc_solve| |intros _; apply IH].
  unfold pingWeighted. keeps_go.
Qed.

Hint Resolve keeps_createWeighted keeps_pingWeighted_range : keeps.

Lemma keeps_pullServers answer : keeps metadata_grows (pullServers answer).
Proof. unfold pullServers. keeps_go. Qed.

Hint Resolve keeps_pullServers : keeps.

Lemma keeps_watchNotification res answer :
  keeps metadata_grows (watchNotification res answer).
Proof. unfold watchNotification. keeps_go. Qed.

Hint Resolve keeps_watchNotification : keeps.

Lemma keeps_watch stream : keeps metadata_grows (watch stream).
Proof.
  induction stream as [|[[[res|] [err|]] answer] stream IH]; cbn; keeps_go.
Qed.

Lemma keeps_run op : keeps metadata_grows (run op).
Proof.
  destruct op; cbn [run]; auto with keeps.
  - apply keeps_same_grows, keeps_removeInactiveServers.
  - apply keeps_watch.
  - apply keeps_same_grows. apply keeps_bind; [tc_solve|apply keeps_Select|intros; keeps_go].
  - apply keeps_same_grows. keeps_go.
  - apply keeps_same_grows, keeps_HandleFailedClient.
  - apply keeps_same_grows. apply keeps_bind; [tc_solve|apply keeps_AllClients|intros; keeps_go].
  - apply keeps_same_grows, keeps_SetSelectMode.
Qed.

Lemma recorded_grows s nodes : forall m k,
  is_Some (m !! k) -> is_Some (recorded s nodes m !! k).
Proof.
  induction nodes as [|n nodes IH]; intros m k Hk; cbn; [done|].
  apply IH. destruct (decide (serverKey s n = k)) as [->|Hne].
  - rewrite lookup_insert_eq. eauto.
  - by rewrite lookup_insert_ne.
Qed.

Lemma recorded_elem_of s nodes : forall m n,
  n ∈ nodes -> is_Some (recorded s nodes m !! serverKey s n).
Proof.
  induction nodes as [|n' nodes IH]; intros m n Hn; [by apply elem_of_nil in Hn|].
  apply elem_of_cons in Hn as [->|Hn]; cbn.
  - apply recorded_grows. rewrite lookup_insert_eq. eauto.
  - by apply IH.
Qed.

(** *** The watch loop keeps the sequences aligned *)

Lemma wp_watchNotification res answer s :
  aligned s ->
  wp true (watchNotification res answer) (fun _ s' _ => aligned s') s.
Proof.
  intros Hal.
  assert (wp true (pullServers answer) (fun _ s' _ => aligned s') s) as Hpull.
  { eapply wp_mono; [apply wp_pullServers; auto|]. cbn. tauto. }
  unfold watchNotification.
  destruct (String.eqb _ "expire").
  - wp_go. eapply wp_mono; [exact Hpull|]. cbn. intros _ s1 l1 Hal1.
    destruct (Node res) as [node|]; [|apply wp_panic].
    destruct (negb _); wp_go; done.
  - destruct (_ || _); [done|]. destruct (String.eqb _ "delete"); [done|].
    by wp_go.
Qed.

Lemma wp_watch stream : forall s,
  aligned s -> wp true (watch stream) (fun _ s' _ => aligned s') s.
Proof.
  induction stream as [|[[[res|] [err|]] answer] stream IH]; intros s Hal; cbn;
    try (by wp_go); try apply wp_panic.
  wp_go. eapply wp_mono; [by apply wp_watchNotification|].
  cbn. intros _ s1 l1 Hal1. eapply wp_mono; [by apply IH|]. done.
Qed.

(** ** The properties *)

(** C7. After every completed pull the address sequence and the
    weighted-record sequence have the same length and the same order: the
    record at each place carries the address at that place. This holds
    whatever the listing, so also when records are excluded for their
    state or their group: after a pull that lists servers, the addresses
    are those of the listed nodes that are not marked inactive, in the
    order of the listing. A pull completes whenever the registry answers
    at all, except that in the ping-weighted mode it panics on a key
    without separator. *)
Theorem pull_keeps_sequences_aligned answer s :
  aligned s \/ children answer <> [] ->
  (forall s' l, pullServers answer s = Done (tt, s', l) ->
     length (WeightedServers s') = length (Servers s') /\
     (forall i sv, Servers s' !! i = Some sv ->
        exists w, WeightedServers s' !! i = Some (Some w) /\ Server w = sv) /\
     (children answer <> [] -> Servers s' = listed s (children answer))) /\
  (SelectMode s <> WeightedICMP -> answer <> (None, None) ->
     exists s' l, pullServers answer s = Done (tt, s', l)).
Proof.
  intros Hal. split.
  - intros s' l E.
    pose proof (wp_pullServers true answer s (or_introl eq_refl) Hal) as H.
    apply (wp_Done _ _ _ _ _ _ _ H) in E as (Hal' & _ & _ & HS).
    split; [by apply Forall2_length in Hal'|]. split.
    + intros i sv Hsv.
      destruct (Forall2_lookup_r _ _ _ _ _ Hal' Hsv) as ([w|] & Hw & Hr); [|done].
      exists w. split; [done|]. cbn in Hr. congruence.
    + intros Hne. by destruct (children answer).
  - intros Hmode Hanswer.
    destruct (wp_returns _ _ _ (wp_pullServers false answer s (or_intror (conj Hmode Hanswer)) Hal))
      as ([] & s' & l & E & _).
    eauto.
Qed.

(** C10. No operation deletes an entry of the metadata map: whatever
    operation runs, every key the map had is still there.
    [removeInactiveServers] leaves the map as it is, and after a pull
    every listed node has its entry, whether or not its address was kept
    in the server list; [Select] in the closest mode draws its candidates
    from that map. *)
Theorem metadata_entries_are_never_deleted op s s' l :
  run op s = Done (tt, s', l) ->
  dom (metadata s) ⊆ dom (metadata s') /\
  (forall inactiveServers,
     op = OpRemoveInactiveServers inactiveServers -> metadata s' = metadata s) /\
  (forall answer n,
     op = OpPullServers answer -> n ∈ children answer ->
     is_Some (metadata s' !! serverKey s n)).
Proof.
  intros E. split; [|split].
  - exact (keeps_Done _ _ _ _ _ _ (keeps_run op) E).
  - intros inact ->. cbn in E.
    exact (keeps_Done _ _ _ _ _ _ (keeps_removeInactiveServers inact) E).
  - intros answer n -> Hn. cbn in E.
    assert (children answer <> []) as Hne by (by intros Hnil; rewrite Hnil in Hn; apply elem_of_nil in Hn).
    pose proof (wp_pullServers true answer s (or_introl eq_refl) (or_intror Hne)) as H.
    apply (wp_Done _ _ _ _ _ _ _ H) in E as (_ & _ & -> & _).
    by apply recorded_elem_of.
Qed.

Lemma index_Some {A} (l : list A) (k : nat) x :
  l !! k = Some x -> index l (Z.of_nat k) = ret x.
Proof.
  intros Hk. unfold index. pose proof (lookup_lt_Some _ _ _ Hk).
  destruct (Z.ltb_spec (Z.of_nat k) 0); [lia|].
  destruct (Z.leb_spec (Z.of_nat (length l)) (Z.of_nat k)); [lia|].
  cbn. by rewrite Nat2Z.id, Hk.
Qed.

Lemma pullServers_failed answer s :
  failed answer -> pullServers answer s = Done (tt, s, [EvGet (BasePath s)]).
Proof.
  destruct answer as [[resp|] [err|]]; cbn; try done.
  intros Hnode. unfold pullServers, bind. cbn. by rewrite Hnode.
Qed.

(** The zero-children branch of [pullServers] replaces the connection
    cache and nothing else. *)
Lemma pullServers_no_children resp node s :
  Node resp = Some node -> Nodes node = [] ->
  pullServers (Some resp, None) s
  = Done (tt, with_clientAndServer ∅ s, [EvGet (BasePath s)]).
Proof. intros Hnode Hnodes. unfold pullServers, bind. cbn. by rewrite Hnode, Hnodes. Qed.

Lemma pullServers_effects answer s s' l :
  pullServers answer s = Done (tt, s', l) -> head l = Some (EvGet (BasePath s)).
Proof.
  unfold pullServers. intros E.
  apply bind_Done in E as (s0 & s1 & l1 & l2 & E1 & E2 & ->).
  injection E1 as <- <- <-.
  apply bind_Done in E2 as ([] & s2 & l3 & l4 & E3 & _ & ->).
  injection E3 as <- <-. done.
Qed.

(** C6. When the registry get fails, with an error or with a response
    that has no node, [pullServers] returns and leaves the selector as it
    was: the address sequence, the weighted records, the length, the
    cursor and the connection cache are those of before. It returns no
    value, so nothing of the failure is handed on, and every later
    [Select] answers as it would have before the pull. *)
Theorem failed_pull_keeps_server_set answer s :
  failed answer ->
  pullServers answer s = Done (tt, s, [EvGet (BasePath s)]) /\
  forall s' l, pullServers answer s = Done (tt, s', l) ->
    Servers s' = Servers s /\ WeightedServers s' = WeightedServers s /\
    len s' = len s /\ currentServer s' = currentServer s /\
    clientAndServer s' = clientAndServer s /\
    forall dial rnd options,
      Select dial rnd options s' = Select dial rnd options s.
Proof.
  intros Hf. pose proof (pullServers_failed answer s Hf) as E.
  split; [exact E|]. intros s' l E'. rewrite E in E'.
  injection E' as <- <-. done.
Qed.

(** C4, as the loop has it. A notification tagged expire, set, update or
    delete makes the loop run a full [pullServers] before it waits for the
    next one: the effects of the turn are those of the pull, the registry
    get first, and the turn leaves the sequences, the length, the cursor
    and the metadata the pull has built (an expire on a response without
    node panics after the pull). A notification with any other tag,
    create among them, runs no pull and changes nothing. *)
Theorem watch_pulls_on_expire_set_update_delete res answer s :
  if decide (Action res ∈ ["expire"; "set"; "update"; "delete"]) then
    match pullServers answer s with
    | Panic msg => watchNotification res answer s = Panic msg
    | Done (_, s1, l1) =>
        head l1 = Some (EvGet (BasePath s)) /\
        ((Action res = "expire" /\ Node res = None /\
          watchNotification res answer s = Panic nil_dereference) \/
         exists s2,
           watchNotification res answer s = Done (tt, s2, l1) /\
           Servers s2 = Servers s1 /\ WeightedServers s2 = WeightedServers s1 /\
           len s2 = len s1 /\ currentServer s2 = currentServer s1 /\
           metadata s2 = metadata s1)
    end
  else watchNotification res answer s = Done (tt, s, []).
Proof.
  unfold watchNotification.
  destruct (String.eqb_spec (Action res) "expire") as [He|He].
  { rewrite decide_True by (rewrite He; set_solver).
    destruct (pullServers answer s) as [[[[] s1] l1]|msg] eqn:E;
      [|by apply bind_Panic].
    split; [by eapply pullServers_effects|].
    rewrite (bind_eq _ _ _ _ _ _ E).
    destruct (Node res) as [node|]; [right|by left].
    destruct (Dir node); cbn; rewrite app_nil_r; eauto 10. }
  destruct (String.eqb_spec (Action res) "set") as [Hs|Hs].
  { rewrite decide_True by (rewrite Hs; set_solver). cbn [orb].
    destruct (pullServers answer s) as [[[[] s1] l1]|msg] eqn:E; [|done].
    split; [by eapply pullServers_effects|]. right. eauto 10. }
  destruct (String.eqb_spec (Action res) "update") as [Hu|Hu].
  { rewrite decide_True by (rewrite Hu; set_solver). cbn [orb].
    destruct (pullServers answer s) as [[[[] s1] l1]|msg] eqn:E; [|done].
    split; [by eapply pullServers_effects|]. right. eauto 10. }
  destruct (String.eqb_spec (Action res) "delete") as [Hd|Hd].
  { rewrite decide_True by (rewrite Hd; set_solver). cbn [orb].
    destruct (pullServers answer s) as [[[[] s1] l1]|msg] eqn:E; [|done].
    split; [by eapply pullServers_effects|]. right. eauto 10. }
  rewrite decide_False; [done|].
  rewrite !elem_of_cons, elem_of_nil. tauto.
Qed.

(** *** The connection cache *)

Lemma index_0 {A} (x : A) l : index (x :: l) 0 = ret x.
Proof. exact (index_Some (x :: l) 0 x eq_refl). Qed.

Lemma index_1 {A} (x y : A) l : index (x :: y :: l) 1 = ret y.
Proof. exact (index_Some (x :: y :: l) 1 y eq_refl). Qed.

Lemma cached_insert m server c : cached (<[server := c]> m) server = c.
Proof. unfold cached. by rewrite lookup_insert_eq. Qed.

Lemma getCachedClient_hit dial server s h :
  cached (clientAndServer s) server = Some h ->
  getCachedClient dial server s = Done ((Some h, None), s, []).
Proof. intros Hc. unfold getCachedClient, bind. cbn. by rewrite Hc. Qed.

Lemma getCachedClient_miss dial server network address rest s :
  cached (clientAndServer s) server = None ->
  Split server at_sign = network :: address :: rest ->
  getCachedClient dial server s
  = Done (dial network address,
          with_clientAndServer (<[server := (dial network address).1]> (clientAndServer s)) s,
          [EvDial network address]).
Proof.
  intros Hc Hs. unfold getCachedClient. unfold bind at 1. cbn [this].
  rewrite Hc, Hs, index_0, index_1. unfold bind, ret, emit. cbn.
  destruct (dial network address) as [c err]. reflexivity.
Qed.

Lemma Split_no_separator s c : contains s c = false -> Split s c = [s].
Proof.
  induction s as [|a s IH]; cbn; [done|].
  destruct (Ascii.eqb a c); [done|]. cbn. intros H. by rewrite IH.
Qed.

(** A key without separator that is not cached makes [getCachedClient]
    panic at [ss[1]]. *)
Lemma getCachedClient_no_separator dial server s :
  contains server at_sign = false ->
  cached (clientAndServer s) server = None ->
  getCachedClient dial server s = Panic index_out_of_range.
Proof.
  intros Hno Hc. unfold getCachedClient. unfold bind at 1. cbn [this].
  rewrite Hc, (Split_no_separator _ _ Hno), index_0. reflexivity.
Qed.

(** C8, as the cache has it. For an address that is not cached and whose
    key has the separator, [getCachedClient] dials once, stores what the
    dial returned under the address even when the dial failed, and returns
    the handle and the error of the dial to its caller. A following call
    for the same address returns the stored handle without dialing only
    when that handle is not nil; a nil handle, as a failed dial leaves,
    counts as a miss and the address is dialed again. *)
Theorem getCachedClient_stores_the_dial dial dial' server network address rest s :
  cached (clientAndServer s) server = None ->
  Split server at_sign = network :: address :: rest ->
  let s' := with_clientAndServer
              (<[server := (dial network address).1]> (clientAndServer s)) s in
  getCachedClient dial server s = Done (dial network address, s', [EvDial network address]) /\
  clientAndServer s' !! server = Some (dial network address).1 /\
  match (dial network address).1 with
  | Some h => getCachedClient dial' server s' = Done ((Some h, None), s', [])
  | None =>
      getCachedClient dial' server s'
      = Done (dial' network address,
              with_clientAndServer
                (<[server := (dial' network address).1]> (clientAndServer s')) s',
              [EvDial network address])
  end.
Proof.
  intros Hc Hs s'. split; [by eapply getCachedClient_miss|].
  split; [subst s'; cbn; by rewrite lookup_insert_eq|].
  destruct (dial network address).1 as [h|] eqn:Hd.
  - apply getCachedClient_hit. subst s'. cbn. by rewrite cached_insert.
  - eapply getCachedClient_miss; [|exact Hs]. subst s'. cbn. by rewrite cached_insert.
Qed.

(** *** [HandleFailedClient] *)

(** The loop looks at the entry the range visits first and at no other:
    it deletes that entry if it holds the failed connection, closes the
    failed connection in either case, and leaves the loop. *)
Lemma HandleFailedClient_first k v order h s :
  HandleFailedClient ((k, v) :: order) (Some h) s
  = Done (tt,
          if decide (v = Some h)
          then with_clientAndServer (delete k (clientAndServer s)) s else s,
          [EvClose h]).
Proof.
  unfold HandleFailedClient. cbn. unfold handleFailedEntry, bind.
  destruct (decide (v = Some h)); reflexivity.
Qed.

(** *** [Select] in the closest mode *)

Lemma getClosestServer_without_coordinates lat lon (m : gmap string string) :
  (forall k v, m !! k = Some v -> distanceFrom lat lon v = None) ->
  getClosestServer lat lon m = [].
Proof.
  intros Hm. unfold getClosestServer.
  assert (forall kv, kv ∈ map_to_list m -> distanceFrom lat lon kv.2 = None) as Hl.
  { intros [k v] Hkv. apply elem_of_map_to_list in Hkv. by eapply Hm. }
  induction (map_to_list m) as [|kv l IH]; [done|].
  cbn. rewrite (Hl kv) by (apply elem_of_cons; by left).
  apply IH. intros kv' Hkv'. apply Hl. apply elem_of_cons. by right.
Qed.

(** With servers listed and no valid coordinates in the metadata, [Select]
    in the closest mode draws from an empty slice and panics. *)
Lemma Select_Closest_without_coordinates dial rnd options s :
  len s <> 0 -> SelectMode s = Closest ->
  (forall k v, metadata s !! k = Some v ->
               distanceFrom (Latitude s) (Longitude s) v = None) ->
  Select dial rnd options s = Panic invalid_Intn.
Proof.
  intros Hlen Hmode Hm. unfold Select. unfold bind at 1. cbn [this].
  destruct (Z.eqb_spec (len s) 0); [done|].
  rewrite Hmode, (getClosestServer_without_coordinates _ _ _ Hm). reflexivity.
Qed.

(** ** More of the selector *)

#[local] Arguments listed : simpl never.
#[local] Arguments kept : simpl never.
#[local] Arguments dropped : simpl never.
#[local] Arguments declared : simpl never.
#[local] Arguments pinged : simpl never.

Lemma wp_conj {A} b (m : M A) (Q1 Q2 : A -> EtcdClientSelector -> list Effect -> Prop) s :
  wp b m Q1 s -> wp true m Q2 s -> wp b m (fun a s' l => Q1 a s' l /\ Q2 a s' l) s.
Proof. unfold wp. destruct (m s) as [[[a s1] l1]|]; [done|tauto]. Qed.

(** *** What [removeInactiveServers] evicts *)

Lemma cached_delete m key key' :
  cached (delete key m) key' = if decide (key = key') then None else cached m key'.
Proof.
  unfold cached. destruct (decide (key = key')) as [->|Hne].
  - by rewrite lookup_delete_eq.
  - by rewrite lookup_delete_ne.
Qed.

Lemma evicted_nil m : evicted [] m m [].
Proof.
  split; [|split; [|split]].
  - intros key Hk. by apply elem_of_nil in Hk.
  - done.
  - intros e He. by apply elem_of_nil in He.
  - intros h. split.
    + intros He. by apply elem_of_nil in He.
    + intros (key & Hk & _). by apply elem_of_nil in Hk.
Qed.

(** One eviction, of [sv], followed by the eviction of [keys]. *)
Lemma evicted_step keys sv m m1 m2 l2 :
  m1 = match cached m sv with Some _ => delete sv m | None => m end ->
  evicted keys m1 m2 l2 ->
  evicted (keys ++ [sv]) m m2
    (match cached m sv with Some h => [EvClose h] | None => [] end ++ l2).
Proof.
  intros Hm1 (Ha & Hb & Hc & Hd).
  assert (cached m1 sv = None) as Hsv.
  { rewrite Hm1. destruct (cached m sv) eqn:E; [|done].
    rewrite cached_delete. by rewrite decide_True. }
  assert (forall key, key <> sv -> m1 !! key = m !! key) as Hother.
  { intros key Hne. rewrite Hm1. destruct (cached m sv); [|done].
    by rewrite lookup_delete_ne. }
  split; [|split; [|split]].
  - intros key Hk. apply elem_of_app in Hk as [Hk|Hk]; [by apply Ha|].
    apply list_elem_of_singleton in Hk as ->.
    destruct (decide (sv ∈ keys)) as [Hin|Hout]; [by apply Ha|].
    unfold cached. rewrite (Hb sv Hout). exact Hsv.
  - intros key Hk. rewrite elem_of_app, list_elem_of_singleton in Hk.
    rewrite Hb by tauto. apply Hother. tauto.
  - intros e He. apply elem_of_app in He as [He|He]; [|by apply Hc].
    destruct (cached m sv) as [h|]; [|by apply elem_of_nil in He].
    apply list_elem_of_singleton in He. eauto.
  - intros h. rewrite elem_of_app, Hd. split.
    + intros [He|(key & Hk & Hkey)].
      * destruct (cached m sv) as [h'|] eqn:E; [|by apply elem_of_nil in He].
        apply list_elem_of_singleton in He. injection He as ->.
        exists sv. split; [|done]. apply elem_of_app. right. by apply list_elem_of_singleton.
      * assert (key <> sv) as Hne by (intros ->; congruence).
        exists key. split; [apply elem_of_app; by left|].
        unfold cached in *. by rewrite <- (Hother key Hne).
    + intros (key & Hk & Hkey). apply elem_of_app in Hk as [Hk|Hk].
      * destruct (decide (key = sv)) as [->|Hne].
        -- left. rewrite Hkey. by apply list_elem_of_singleton.
        -- right. exists key. split; [done|]. unfold cached in *. by rewrite (Hother key Hne).
      * apply list_elem_of_singleton in Hk as ->. left. rewrite Hkey.
        by apply list_elem_of_singleton.
Qed.

Lemma wp_removeInactiveServer_evicts b inactiveServers i k sv s :
  inactiveServers !! i = Some k ->
  Servers s !! k = Some sv ->
  length (WeightedServers s) = length (Servers s) ->
  wp b (removeInactiveServer inactiveServers i)
    (fun _ s' l =>
       Servers s' = delete k (Servers s) /\
       WeightedServers s' = delete k (WeightedServers s) /\
       len s' = len s /\ currentServer s' = currentServer s /\
       clientAndServer s'
       = match cached (clientAndServer s) sv with
         | Some _ => delete sv (clientAndServer s)
         | None => clientAndServer s
         end /\
       l = match cached (clientAndServer s) sv with
           | Some h => [EvClose h]
           | None => []
           end) s.
Proof.
  intros Hi Hsv Hlen. unfold removeInactiveServer. rewrite Hi.
  pose proof (lookup_lt_Some _ _ _ Hsv) as Hk.
  wp_go. eapply wp_index; [exact Hsv|].
  wp_go. apply wp_remove_at; [done|].
  wp_go. apply wp_remove_at; [cbn; lia|].
  wp_go. cbn.
  destruct (cached _ sv) as [h|]; wp_go; cbn; done.
Qed.

Lemma placed_app servers ks1 ks2 :
  placed servers (ks1 ++ ks2) = placed servers ks1 ++ placed servers ks2.
Proof. apply omap_app. Qed.

Lemma placed_delete servers k ks :
  Forall (fun k' => (k' < k)%nat) ks ->
  placed (delete k servers) ks = placed servers ks.
Proof.
  intros Hks. unfold placed. induction Hks as [|k' ks Hk' _ IH]; [done|].
  cbn. rewrite IH. by rewrite list_lookup_delete_lt.
Qed.

Lemma wp_removeInactiveServers_from_evicts b inactiveServers n s :
  (n <= length inactiveServers)%nat ->
  increasing_below (length (Servers s)) (take n inactiveServers) ->
  length (WeightedServers s) = length (Servers s) ->
  wp b (removeInactiveServers_from inactiveServers n)
    (fun _ s' l =>
       WeightedServers s' = foldr delete (WeightedServers s) (take n inactiveServers) /\
       Servers s' = foldr delete (Servers s) (take n inactiveServers) /\
       len s' = len s /\ currentServer s' = currentServer s /\
       evicted (placed (Servers s) (take n inactiveServers))
         (clientAndServer s) (clientAndServer s') l) s.
Proof.
  revert s. induction n as [|i IH]; intros s Hn Hinc Hlen; cbn.
  - apply wp_ret. repeat (split; [done|]). apply evicted_nil.
  - destruct (lookup_lt_is_Some_2 inactiveServers i) as [k Hk]; [lia|].
    rewrite (take_S_r _ _ _ Hk) in Hinc |- *.
    apply increasing_below_snoc in Hinc as [Hinc Hlt].
    destruct (lookup_lt_is_Some_2 (Servers s) k Hlt) as [sv Hsv].
    wp_go. eapply wp_mono; [by apply (wp_removeInactiveServer_evicts b _ _ k sv)|].
    cbn. intros _ s1 l1 (HS & HW & HL & HC & HM & ->).
    eapply wp_mono.
    { apply IH; [lia| |].
      - rewrite HS, length_delete by (by apply lookup_lt_is_Some_2).
        eapply increasing_below_weaken; [|exact Hinc]. lia.
      - rewrite HS, HW, !length_delete; [lia| |]; apply lookup_lt_is_Some_2; lia. }
    cbn. intros _ s2 l2 (HW2 & HS2 & HL2 & HC2 & Hev).
    rewrite !foldr_app. cbn.
    split; [by rewrite HW2, HW|]. split; [by rewrite HS2, HS|].
    split; [congruence|]. split; [congruence|].
    rewrite placed_app. unfold placed at 2. cbn. rewrite Hsv. cbn.
    eapply evicted_step; [exact HM|].
    rewrite HS, placed_delete in Hev by apply Hinc. exact Hev.
Qed.

(** *** What [createWeighted] builds *)

Lemma declared_settings s s' n :
  same_settings s s' -> declared s' n = declared s n.
Proof. intros H. unfold declared. by rewrite (serverKey_BasePath s s'). Qed.

(** A turn of the loop writes the record of the node at its place and the
    value of the node in the metadata, and nothing else. *)
Lemma wp_createWeightedNode_builds b i n inactiveServers s :
  (i < length (WeightedServers s))%nat ->
  wp b (createWeightedNode i n inactiveServers)
    (fun _ s' l =>
       l = [] /\
       s' = with_metadata (<[serverKey s n := Value n]> (metadata s))
              (with_WeightedServers (<[i := Some (declared s n)]> (WeightedServers s)) s)) s.
Proof.
  intros Hi. unfold createWeightedNode, setWeighted, declared, declaredWeight.
  wp_go. destruct (Nat.ltb_spec i (length (WeightedServers s))); [|lia].
  wp_go. cbn.
  destruct (ParseQuery (Value n)) as [v|]; wp_go; cbn; [|done].
  destruct (String.eqb _ ""); [by wp_go|].
  destruct (Atoi _) as [weight|]; [|by wp_go].
  unfold setWeights. wp_go. cbn.
  rewrite list_lookup_insert_eq by done.
  wp_go. cbn. by rewrite list_insert_insert_eq.
Qed.

Lemma wp_createWeighted_range_builds b nodes : forall i inactiveServers s,
  (i + length nodes = length (WeightedServers s))%nat ->
  wp b (createWeighted_range i nodes inactiveServers)
    (fun _ s' l =>
       l = [] /\
       WeightedServers s'
       = take i (WeightedServers s) ++ map (fun n => Some (declared s n)) nodes /\
       clientAndServer s' = clientAndServer s /\
       len s' = len s /\ currentServer s' = currentServer s /\
       same_settings s s') s.
Proof.
  induction nodes as [|n nodes IH]; intros i inact s Hlen; cbn.
  - apply wp_ret. cbn in Hlen. rewrite take_ge by lia. by rewrite app_nil_r.
  - cbn in Hlen. wp_go.
    eapply wp_mono; [apply wp_createWeightedNode_builds; lia|].
    cbn. intros inact' s1 l1 (-> & ->).
    eapply wp_mono; [apply IH; cbn; rewrite length_insert; lia|].
    cbn. intros inact2 s2 l2 (-> & HW & HC & HL & HCu & HB).
    split; [done|]. split; [|done].
    rewrite HW. rewrite (take_S_r _ _ (Some (declared s n)))
      by (apply list_lookup_insert_eq; lia).
    rewrite take_insert_ge by lia. rewrite <- app_assoc. reflexivity.
Qed.

Lemma placed_shift x servers ks :
  placed (x :: servers) (map S ks) = placed servers ks.
Proof. unfold placed. induction ks as [|k ks IH]; cbn; [done|]. by rewrite IH. Qed.

(** The addresses at the places whose flag is set are those of the
    elements whose flag is set. *)
Lemma placed_indices {A} (f : A -> string) (p : A -> bool) (xs : list A) :
  placed (map f xs) (indices_from 0 (map p xs)) = map f (List.filter p xs).
Proof.
  induction xs as [|x xs IH]; [done|].
  cbn [map indices_from List.filter].
  rewrite placed_app, indices_from_S, placed_shift, IH.
  by destruct (p x).
Qed.

Lemma wp_createWeighted_builds b nodes s :
  Servers s = map (serverKey s) nodes ->
  wp b (createWeighted nodes)
    (fun _ s' l =>
       Servers s' = listed s nodes /\
       WeightedServers s' = map (fun n => Some (declared s n)) (kept s nodes) /\
       len s' = len s /\ currentServer s' = currentServer s /\
       evicted (map (serverKey s) (dropped s nodes))
         (clientAndServer s) (clientAndServer s') l) s.
Proof.
  intros HS. unfold createWeighted. wp_go.
  set (s0 := with_WeightedServers _ s).
  eapply wp_mono.
  { apply wp_conj.
    - apply (wp_createWeighted_range b nodes 0 [] s0).
      + subst s0. cbn. by rewrite length_replicate.
      + lia.
      + subst s0. cbn. exact HS.
      + rewrite !take_0. constructor.
      + split; constructor.
    - apply (wp_createWeighted_range_builds true nodes 0 [] s0).
      subst s0. cbn. by rewrite length_replicate, HS, length_map. }
  cbn. intros inact s1 l1
    ((-> & Hal & Hinc & HS1 & HB1 & _ & _ & Hin1) & (_ & HW1 & HC1 & HL1 & HCu1 & _)).
  eapply wp_mono.
  { apply wp_removeInactiveServers_from_evicts; [done| |].
    - by rewrite firstn_all.
    - by apply Forall2_length in Hal. }
  cbn. intros _ s2 l2 (HW2 & HS2 & HL2 & HCu2 & Hev).
  rewrite firstn_all in *. cbn in Hin1. subst inact.
  split. { rewrite HS2, HS1. subst s0. cbn. rewrite HS. apply foldr_delete_indices. }
  split. { rewrite HW2, HW1. rewrite take_0. cbn. apply foldr_delete_indices. }
  split; [by rewrite HL2, HL1|]. split; [by rewrite HCu2, HCu1|].
  rewrite HS1, HC1 in Hev. subst s0. cbn in Hev.
  rewrite HS, placed_indices in Hev. exact Hev.
Qed.

(** *** Keys and their parts *)

Lemma Split_nonempty s c : exists piece pieces, Split s c = piece :: pieces.
Proof.
  induction s as [|a s (piece & pieces & IH)]; cbn; [eauto|].
  destruct (Ascii.eqb a c); [eauto|]. rewrite IH. eauto.
Qed.

(** A key with the separator splits into a network, an address and
    possibly more. *)
Lemma Split_separator s c :
  contains s c = true ->
  exists network address rest, Split s c = network :: address :: rest.
Proof.
  induction s as [|a s IH]; cbn; [done|].
  destruct (Ascii.eqb a c); cbn.
  - intros _. destruct (Split_nonempty s c) as (piece & pieces & ->). eauto.
  - intros H. destruct (IH H) as (network & address & rest & ->). eauto.
Qed.

Lemma Split_parts server :
  contains server at_sign = true ->
  exists rest, Split server at_sign = networkOf server :: addressOf server :: rest.
Proof.
  intros H. destruct (Split_separator _ _ H) as (network & address & rest & E).
  unfold networkOf, addressOf. rewrite E. eauto.
Qed.

(** *** What the ping loop builds *)

Lemma wp_pingWeighted_range_builds b ws : forall i s,
  drop i (WeightedServers s) = map Some ws ->
  Forall (fun w => contains (Server w) at_sign = true) ws ->
  wp b (pingWeighted_range i (map Some ws))
    (fun _ s' l =>
       WeightedServers s'
       = take i (WeightedServers s) ++ map (fun w => Some (pinged (Server w))) ws /\
       l = map (fun w => EvPing (SplitHostPort (addressOf (Server w)))) ws /\
       Servers s' = Servers s /\ clientAndServer s' = clientAndServer s /\
       len s' = len s /\ currentServer s' = currentServer s /\
       metadata s' = metadata s /\ same_settings s s') s.
Proof.
  induction ws as [|w ws IH]; intros i s Hdrop Hws; cbn.
  - apply wp_ret. cbn in Hdrop.
    assert (length (WeightedServers s) <= i)%nat as Hi.
    { apply (f_equal length) in Hdrop. rewrite length_drop in Hdrop. cbn in Hdrop. lia. }
    rewrite take_ge by lia. by rewrite app_nil_r.
  - apply Forall_cons in Hws as [Hw Hws].
    assert (WeightedServers s !! i = Some (Some w)) as Hi.
    { rewrite <- (Nat.add_0_r i), <- lookup_drop, Hdrop. done. }
    pose proof (lookup_lt_Some _ _ _ Hi) as Hlt.
    destruct (Split_parts _ Hw) as (rest & Hsplit).
    wp_go. unfold pingWeighted. rewrite Hsplit, index_1.
    wp_go. cbn.
    set (s1 := with_WeightedServers _ s).
    eapply wp_mono.
    { apply (IH (S i) s1); [|done]. subst s1. cbn.
      rewrite drop_insert_lt by lia.
      replace (S i) with (i + 1)%nat by lia. rewrite <- drop_drop, Hdrop. done. }
    cbn. intros _ s2 l2 (HW & -> & HS & HC & HL & HCu & HM & HB).
    split; [|done]. rewrite HW. subst s1. cbn.
    rewrite (take_S_r _ _ (Some (pinged (Server w)))) by (apply list_lookup_insert_eq; lia).
    rewrite take_insert_ge by lia. by rewrite <- app_assoc.
Qed.

(** *** What a pull that lists servers builds *)

Lemma wp_pullServers_builds b answer s :
  children answer <> [] ->
  (SelectMode s = WeightedICMP ->
   Forall (fun server => contains server at_sign = true) (listed s (children answer))) ->
  wp b (pullServers answer)
    (fun _ s' l =>
       Servers s' = listed s (children answer) /\
       WeightedServers s'
       = (if decide (SelectMode s = WeightedICMP)
          then map (fun server => Some (pinged server)) (listed s (children answer))
          else map (fun n => Some (declared s n)) (kept s (children answer))) /\
       len s' = Z.of_nat (length (Servers s')) /\
       currentServer s'
       = (if 0 <? len s' then Z.rem (currentServer s) (len s') else currentServer s) /\
       exists closes,
         evicted (map (serverKey s) (dropped s (children answer)))
           (clientAndServer s) (clientAndServer s') closes /\
         l = EvGet (BasePath s) :: closes ++
             (if decide (SelectMode s = WeightedICMP)
              then map (fun server => EvPing (SplitHostPort (addressOf server)))
                     (listed s (children answer))
              else [])) s.
Proof.
  intros Hne Hkeys. unfold pullServers. wp_go.
  destruct answer as [[resp|] [err|]]; cbn in Hne, Hkeys |- *; try done.
  destruct (Node resp) as [node|]; [|done].
  destruct (Nodes node) as [|n nodes] eqn:Hn; [done|].
  cbn [length Nat.ltb Nat.leb]. wp_go.
  set (s0 := with_Servers _ s).
  eapply wp_mono.
  { apply wp_conj.
    - apply (wp_createWeighted_builds b (n :: nodes) s0). done.
    - apply (wp_createWeighted true (n :: nodes) s0). done. }
  cbn. intros _ s1 l1 ((HS1 & HW1 & HL1 & HCu1 & Hev) & (_ & HB1 & _)).
  change (listed s0 (n :: nodes)) with (listed s (n :: nodes)) in HS1.
  change (kept s0 (n :: nodes)) with (kept s (n :: nodes)) in HW1.
  change (dropped s0 (n :: nodes)) with (dropped s (n :: nodes)) in Hev.
  assert (SelectMode s1 = SelectMode s) as HSM by (destruct HB1 as (_ & _ & H); exact H).
  wp_go. rewrite HSM.
  destruct (decide (SelectMode s = WeightedICMP)) as [Hicmp|Hother].
  - assert (WeightedServers s1
            = map Some (map (declared s) (kept s (n :: nodes)))) as HW1'.
    { rewrite HW1, map_map. done. }
    rewrite HW1'.
    eapply wp_mono.
    { apply (wp_pingWeighted_range_builds b _ 0 s1); [by rewrite drop_0|].
      specialize (Hkeys Hicmp). unfold listed in Hkeys. fold (kept s (n :: nodes)) in Hkeys.
      rewrite Forall_map in Hkeys |- *. exact Hkeys. }
    cbn. intros _ s2 l2 (HW2 & -> & HS2 & HC2 & HL2 & HCu2 & _ & _).
    wp_go. cbn.
    assert (Servers s2 = listed s (n :: nodes)) as HS by congruence.
    assert (WeightedServers s2
            = map (fun server => Some (pinged server)) (listed s (n :: nodes))) as HW.
    { rewrite HW2, take_0. cbn [app]. unfold listed. fold (kept s (n :: nodes)).
      rewrite !map_map. done. }
    assert (evicted (map (serverKey s) (dropped s (n :: nodes)))
              (clientAndServer s) (clientAndServer s2) l1) as Hev2 by (by rewrite HC2).
    assert (map (fun w => EvPing (SplitHostPort (addressOf (Server w))))
              (map (declared s) (kept s (n :: nodes)))
            = map (fun server => EvPing (SplitHostPort (addressOf server)))
                (listed s (n :: nodes))) as Hpings.
    { unfold listed. fold (kept s (n :: nodes)). rewrite !map_map. done. }
    destruct (0 <? Z.of_nat (length (Servers s2))) eqn:Hpos; wp_go; cbn; rewrite ?Hpos.
    + repeat (split; [first [done|congruence]|]).
      exists l1. split; [done|]. by rewrite Hpings, app_nil_r.
    + repeat (split; [first [done|congruence]|]).
      exists l1. split; [done|]. by rewrite Hpings, app_nil_r.
  - wp_go. cbn.
    destruct (0 <? Z.of_nat (length (Servers s1))) eqn:Hpos; wp_go; cbn; rewrite ?Hpos.
    + repeat (split; [first [done|congruence]|]).
      exists l1. split; [done|]. by rewrite ?app_nil_r.
    + repeat (split; [first [done|congruence]|]).
      exists l1. split; [done|]. by rewrite ?app_nil_r.
Qed.

(** A pull that lists servers returns, provided that in the ping-weighted
    mode every address it keeps has the separator. *)
Lemma pullServers_builds answer s :
  children answer <> [] ->
  (SelectMode s = WeightedICMP ->
   Forall (fun server => contains server at_sign = true) (listed s (children answer))) ->
  exists s' l,
    pullServers answer s = Done (tt, s', l) /\
    Servers s' = listed s (children answer) /\
    WeightedServers s'
    = (if decide (SelectMode s = WeightedICMP)
       then map (fun server => Some (pinged server)) (listed s (children answer))
       else map (fun n => Some (declared s n)) (kept s (children answer))) /\
    len s' = Z.of_nat (length (Servers s')) /\
    currentServer s'
    = (if 0 <? len s' then Z.rem (currentServer s) (len s') else currentServer s) /\
    exists closes,
      evicted (map (serverKey s) (dropped s (children answer)))
        (clientAndServer s) (clientAndServer s') closes /\
      l = EvGet (BasePath s) :: closes ++
          (if decide (SelectMode s = WeightedICMP)
           then map (fun server => EvPing (SplitHostPort (addressOf server)))
                  (listed s (children answer))
           else []).
Proof.
  intros Hne Hkeys.
  destruct (wp_returns _ _ _ (wp_pullServers_builds false answer s Hne Hkeys))
    as ([] & s' & l & E & H).
  exists s', l. split; [exact E|exact H].
Qed.


(** X2. Outside the ping-weighted mode, a pull that lists servers leaves
    one weighted record per node it keeps, in the order of the listing,
    with the address of the node and, as weight and effective weight, the
    integer the node declares under [weight], or 1 when the value does not
    parse, declares no weight or declares one that is no integer. *)
Theorem pull_builds_declared_weights answer s :
  children answer <> [] ->
  SelectMode s <> WeightedICMP ->
  exists s' l,
    pullServers answer s = Done (tt, s', l) /\
    WeightedServers s'
    = map (fun n => Some (mkWeighted (serverKey s n) (declaredWeight n) (declaredWeight n)))
        (List.filter (fun n => negb (excluded s n)) (children answer)).
Proof.
  intros Hne Hmode.
  destruct (pullServers_builds answer s Hne) as (s' & l & E & _ & HW & _); [done|].
  exists s', l. split; [exact E|]. by rewrite decide_False in HW.
Qed.


(** X4. A pull that lists servers closes exactly the cached connections of
    the nodes it marks inactive: afterwards none of their addresses has a
    connection in the cache, every other entry of the cache is as it was
    (also the entries of addresses that are no longer listed), and a
    connection is closed iff it was cached for the address of a node
    marked inactive. *)
Theorem pull_closes_inactive_connections answer s :
  children answer <> [] ->
  (SelectMode s = WeightedICMP ->
   Forall (fun server => contains server at_sign = true) (listed s (children answer))) ->
  exists s' l,
    pullServers answer s = Done (tt, s', l) /\
    (forall n, n ∈ children answer -> excluded s n = true ->
       cached (clientAndServer s') (serverKey s n) = None) /\
    (forall key,
       (forall n, n ∈ children answer -> excluded s n = true -> serverKey s n <> key) ->
       clientAndServer s' !! key = clientAndServer s !! key) /\
    (forall h, EvClose h ∈ l <->
       exists n, n ∈ children answer /\ excluded s n = true /\
                 cached (clientAndServer s) (serverKey s n) = Some h).
Proof.
  intros Hne Hkeys.
  destruct (pullServers_builds answer s Hne Hkeys)
    as (s' & l & E & _ & _ & _ & _ & closes & (Ha & Hb & Hc & Hd) & Hl).
  assert (forall key, key ∈ map (serverKey s) (dropped s (children answer)) <->
            exists n, n ∈ children answer /\ excluded s n = true /\ serverKey s n = key)
    as Hkey.
  { intros key. rewrite list_elem_of_fmap. unfold dropped. split.
    - intros (n & -> & Hn). apply list_elem_of_In, filter_In in Hn as [Hn Hex].
      exists n. by rewrite list_elem_of_In.
    - intros (n & Hn & Hex & <-). exists n. split; [done|].
      apply list_elem_of_In, filter_In. by rewrite <- list_elem_of_In. }
  exists s', l. split; [exact E|]. split; [|split].
  - intros n Hn Hex. apply Ha, Hkey. eauto.
  - intros key Hkeyn. apply Hb. rewrite Hkey. intros (n & Hn & Hex & Heq).
    by apply (Hkeyn n).
  - intros h. rewrite Hl. split.
    + intros He. apply elem_of_cons in He as [He|He]; [done|].
      apply elem_of_app in He as [He|He].
      * apply Hd in He as (key & Hk & Hc'). apply Hkey in Hk as (n & Hn & Hex & <-). eauto.
      * destruct (decide _); [|by apply elem_of_nil in He].
        apply list_elem_of_fmap in He as (? & ? & _). done.
    + intros (n & Hn & Hex & Hc'). apply elem_of_cons. right. apply elem_of_app. left.
      apply Hd. exists (serverKey s n). split; [|done]. apply Hkey. eauto.
Qed.

(** *** The metadata a pull records *)

Lemma recorded_lookup_other s nodes : forall m key,
  key ∉ map (serverKey s) nodes -> recorded s nodes m !! key = m !! key.
Proof.
  induction nodes as [|n nodes IH]; intros m key Hk; cbn; [done|].
  cbn in Hk. rewrite not_elem_of_cons in Hk. destruct Hk as [Hne Hk].
  fold (recorded s nodes (<[serverKey s n := Value n]> m)).
  rewrite IH by done. by rewrite lookup_insert_ne.
Qed.

Lemma recorded_lookup s nodes : forall m n,
  NoDup (map (serverKey s) nodes) -> n ∈ nodes ->
  recorded s nodes m !! serverKey s n = Some (Value n).
Proof.
  induction nodes as [|n' nodes IH]; intros m n Hnd Hn; [by apply elem_of_nil in Hn|].
  cbn in Hnd. apply NoDup_cons in Hnd as [Hfresh Hnd].
  cbn. fold (recorded s nodes (<[serverKey s n' := Value n']> m)).
  apply elem_of_cons in Hn as [->|Hn]; [|by apply IH].
  rewrite recorded_lookup_other by done. apply lookup_insert_eq.
Qed.

(** X5. After a completed pull whose listing has distinct keys, the
    metadata map holds for every listed node, kept or not, the value of
    that node, and the entry of every address that is not listed is as it
    was before the pull. *)
Theorem pull_records_metadata answer s s' l :
  NoDup (map (serverKey s) (children answer)) ->
  pullServers answer s = Done (tt, s', l) ->
  (forall n, n ∈ children answer -> metadata s' !! serverKey s n = Some (Value n)) /\
  (forall key, key ∉ map (serverKey s) (children answer) ->
     metadata s' !! key = metadata s !! key).
Proof.
  intros Hnd E.
  assert (metadata s' = recorded s (children answer) (metadata s)) as ->.
  { destruct (children answer) as [|n nodes] eqn:Hc.
    - pose proof (keeps_Done _ _ _ _ _ _ (keeps_pullServers answer) E) as _.
      destruct answer as [[resp|] [err|]]; cbn in Hc.
      + rewrite pullServers_failed in E by done. by injection E as <- <-.
      + destruct (Node resp) as [node|] eqn:Hnode.
        * rewrite (pullServers_no_children resp node s Hnode Hc) in E. by injection E as <- <-.
        * rewrite pullServers_failed in E by done. by injection E as <- <-.
      + rewrite pullServers_failed in E by done. by injection E as <- <-.
      + done.
    - rewrite <- Hc.
      assert (children answer <> []) as Hne by (by rewrite Hc).
      pose proof (wp_pullServers true answer s (or_introl eq_refl) (or_intror Hne)) as H.
      by apply (wp_Done _ _ _ _ _ _ _ H) in E as (_ & _ & -> & _). }
  split.
  - intros n Hn. by apply recorded_lookup.
  - intros key Hk. by apply recorded_lookup_other.
Qed.

(** *** The connection cache, for keys with the separator *)

Lemma getCachedClient_served dial server s :
  contains server at_sign = true ->
  getCachedClient dial server s = served dial server s.
Proof.
  intros Hsep. unfold served.
  destruct (cached (clientAndServer s) server) as [h|] eqn:Hc.
  - by apply getCachedClient_hit.
  - destruct (Split_parts _ Hsep) as (rest & Hsplit).
    by eapply getCachedClient_miss.
Qed.

(** X6. [HandleFailedClient] looks at one entry of the cache only. With an
    empty cache it does nothing, and the failed connection is not closed.
    Otherwise it closes the failed connection exactly once and removes at
    most one entry, one that held that connection; the rest of the
    selector is as it was. *)
Theorem HandleFailedClient_closes_once order h s :
  order ≡ₚ map_to_list (clientAndServer s) ->
  exists cache',
    HandleFailedClient order (Some h) s
    = Done (tt, with_clientAndServer cache' s,
            if decide (clientAndServer s = ∅) then [] else [EvClose h]) /\
    (cache' = clientAndServer s \/
     exists k, clientAndServer s !! k = Some (Some h) /\
               cache' = delete k (clientAndServer s)).
Proof.
  intros Horder. destruct order as [|[k v] order].
  - apply Permutation_nil in Horder.
    apply map_to_list_empty_iff in Horder.
    exists (clientAndServer s). rewrite decide_True by done.
    split; [|by left]. by destruct s.
  - assert (clientAndServer s !! k = Some v) as Hk.
    { apply elem_of_map_to_list. rewrite <- Horder. apply elem_of_cons. by left. }
    assert (clientAndServer s <> ∅) as Hne.
    { intros Hempty. rewrite Hempty in Hk. by rewrite lookup_empty in Hk. }
    destruct (decide (v = Some h)) as [->|Hv].
    + exists (delete k (clientAndServer s)).
      rewrite HandleFailedClient_first. rewrite !decide_True, decide_False by done.
      split; [done|]. right. eauto.
    + exists (clientAndServer s).
      rewrite HandleFailedClient_first. rewrite !decide_False by done.
      split; [|by left]. by destruct s.
Qed.

(** *** [AllClients] *)

Lemma AllClients_range_dials dial servers : forall clients s,
  Forall (fun server => contains server at_sign = true) servers ->
  AllClients_range dial servers clients s
  = Done (clients ++ dialed dial servers, s, dialing dial servers).
Proof.
  induction servers as [|sv servers IH]; intros clients s Hs; cbn.
  - by rewrite app_nil_r.
  - apply Forall_cons in Hs as [Hsv Hs].
    destruct (Split_parts _ Hsv) as (rest & Hsplit).
    assert (dialServer dial sv clients s
            = Done (clients ++ match dial (networkOf sv) (addressOf sv) with
                               | (c, None) => [c]
                               | (_, Some _) => []
                               end, s,
                    EvDial (networkOf sv) (addressOf sv) ::
                    match dial (networkOf sv) (addressOf sv) with
                    | (_, Some e) => [EvLog ("rpc client connect server failed: " +:+ e)]
                    | (_, None) => []
                    end)) as Hdial.
    { unfold dialServer. rewrite Hsplit, index_0, index_1. unfold bind, ret, emit. cbn.
      destruct (dial (networkOf sv) (addressOf sv)) as [c [e|]]; cbn; [|done].
      by rewrite app_nil_r. }
    rewrite (bind_eq _ _ _ _ _ _ Hdial), IH by done.
    destruct (dial (networkOf sv) (addressOf sv)) as [c [e|]]; cbn.
    + by rewrite app_nil_r.
    + by rewrite <- app_assoc.
Qed.

(** X7. When every address has the separator, [AllClients] dials every
    address once, in order, and returns the connections of the dials that
    gave no error; a failed dial is logged and skipped. It neither reads
    nor fills the connection cache: the selector is left as it was. *)
Theorem AllClients_dials_every_server dial s :
  Forall (fun server => contains server at_sign = true) (Servers s) ->
  AllClients dial s = Done (dialed dial (Servers s), s, dialing dial (Servers s)).
Proof.
  intros Hs. unfold AllClients. unfold bind at 1. cbn [this].
  by rewrite AllClients_range_dials.
Qed.

(** *** [Select] by index *)

Lemma ready_index s i :
  ready s -> 0 <= i < len s ->
  exists server,
    Servers s !! Z.to_nat i = Some server /\ contains server at_sign = true /\
    index (Servers s) i = ret server.
Proof.
  intros (Hlen & _ & _ & Hkeys) Hi.
  destruct (lookup_lt_is_Some_2 (Servers s) (Z.to_nat i)) as [server Hsv]; [lia|].
  exists server. split; [done|]. split.
  - rewrite Forall_forall in Hkeys. eapply Hkeys, list_elem_of_lookup_2, Hsv.
  - rewrite <- (Z2Nat.id i) at 1 by lia. by apply index_Some.
Qed.

Lemma Select_chosen dial rnd options s i :
  ready s -> 0 < len s -> currentServer s < len s ->
  (SelectMode s = RandomSelect /\ i = rnd mod len s) \/
  (SelectMode s = RoundRobin /\ i = (currentServer s + 1) mod len s) ->
  0 <= i < len s /\
  exists server,
    Servers s !! Z.to_nat i = Some server /\
    Select dial rnd options s = served dial server (with_currentServer i s) /\
    forall r s' l, Select dial rnd options s = Done (r, s', l) ->
      ready s' /\ currentServer s' = i /\ Servers s' = Servers s /\ len s' = len s.
Proof.
  intros Hready Hpos Hcur Hmode.
  assert (0 <= i < len s) as Hi.
  { destruct Hmode as [[_ ->]|[_ ->]]; by apply Z.mod_pos_bound. }
  split; [exact Hi|].
  destruct (ready_index s i Hready Hi) as (server & Hsv & Hsep & Hindex).
  exists server. split; [exact Hsv|].
  assert (Select dial rnd options s = served dial server (with_currentServer i s)) as E.
  { rewrite <- getCachedClient_served by done.
    unfold Select. unfold bind at 1. cbn [this].
    destruct (Z.eqb_spec (len s) 0); [lia|].
    destruct Hmode as [[-> ->]|[-> ->]].
    - unfold Intn. destruct (Z.leb_spec (len s) 0); [lia|].
      unfold bind at 1. cbn [ret]. unfold bind at 1. cbn [modify].
      rewrite Hindex. unfold bind at 1. cbn [ret].
      by destruct (getCachedClient dial server _) as [[[r s'] l]|].
    - destruct Hready as (_ & Hint & Hnonneg & _).
      assert (wrap_int (currentServer s + 1) = currentServer s + 1) as ->.
      { unfold wrap_int. rewrite Z.mod_small; lia. }
      rewrite Z.rem_mod_nonneg by lia.
      unfold bind at 1. cbn [modify].
      rewrite Hindex. unfold bind at 1. cbn [ret].
      by destruct (getCachedClient dial server _) as [[[r s'] l]|]. }
  split; [exact E|].
  intros r s' l E'. rewrite E in E'. unfold served in E'.
  destruct Hready as (Hlen & Hint & Hnonneg & Hkeys).
  destruct (cached _ server); injection E' as <- <- <-; cbn; (split; [|done]);
    repeat split; cbn; (done || lia).
Qed.

(** X8. On a selector as a pull leaves it, with at least one address and
    the cursor inside the sequence, [Select] in the random and the
    round-robin mode never panics: it moves the cursor to the number drawn
    modulo the length, respectively to the place after the cursor (the
    first place after the last), and serves the address at that place from
    the cache, or by one dial whose result it stores. The selector it
    leaves is again such a selector. *)
Theorem Select_serves_the_chosen_address dial rnd options s i :
  ready s -> 0 < len s -> currentServer s < len s ->
  (SelectMode s = RandomSelect /\ i = rnd mod len s) \/
  (SelectMode s = RoundRobin /\ i = (currentServer s + 1) mod len s) ->
  0 <= i < len s /\
  exists server,
    Servers s !! Z.to_nat i = Some server /\
    Select dial rnd options s = served dial server (with_currentServer i s) /\
    forall r s' l, Select dial rnd options s = Done (r, s', l) ->
      ready s' /\ currentServer s' = i /\ Servers s' = Servers s /\ len s' = len s.
Proof. apply Select_chosen. Qed.

(** *** Round robin over several calls *)

Lemma served_Done dial server s :
  exists r s' l, served dial server s = Done (r, s', l).
Proof. unfold served. destruct (cached _ server); eauto. Qed.

Lemma round_robin_steps calls : forall s,
  ready s -> 0 < len s -> currentServer s < len s -> SelectMode s = RoundRobin ->
  exists rs s' l,
    SelectAll calls s = Done (rs, s', l) /\
    length rs = length calls /\
    currentServer s' = (currentServer s + Z.of_nat (length calls)) mod len s /\
    ready s' /\ Servers s' = Servers s /\ len s' = len s /\ SelectMode s' = RoundRobin.
Proof.
  induction calls as [|[[dial rnd] options] calls IH]; intros s Hready Hpos Hcur Hmode.
  - exists [], s, []. cbn. rewrite Z.add_0_r, Z.mod_small by (destruct Hready as (_ & _ & ? & _); lia).
    done.
  - destruct (Select_chosen dial rnd options s ((currentServer s + 1) mod len s)
                Hready Hpos Hcur (or_intror (conj Hmode eq_refl)))
      as (Hi & server & _ & E & Hafter).
    destruct (served_Done dial server (with_currentServer ((currentServer s + 1) mod len s) s))
      as (r & s1 & l1 & E1).
    rewrite E1 in E. destruct (Hafter r s1 l1 E) as (Hready1 & Hcur1 & HS1 & HL1).
    assert (SelectMode s1 = RoundRobin) as Hmode1.
    { unfold served in E1. destruct (cached _ server); injection E1 as <- <- <-; exact Hmode. }
    destruct (IH s1 Hready1) as (rs & s2 & l2 & E2 & Hrs & Hcur2 & Hready2 & HS2 & HL2 & Hmode2);
      [lia|lia|done|].
    exists (r :: rs), s2, (l1 ++ l2 ++ []). cbn [SelectAll].
    rewrite (bind_eq _ _ _ _ _ _ E), (bind_eq _ _ _ _ _ _ E2). cbn.
    split; [done|]. split; [by rewrite Hrs|].
    split; [|repeat split; try apply Hready2; congruence].
    rewrite Hcur2, Hcur1, HL1.
    rewrite Zplus_mod_idemp_l. f_equal. lia.
Qed.

(** X9. In the round-robin mode, on a selector as a pull leaves it with
    the cursor inside the sequence, any number of calls of [Select] in a
    row all return, whatever the dials answer; they leave the addresses
    alone and move the cursor forward by one place per call, wrapping at
    the end of the sequence. *)
Theorem round_robin_advances_the_cursor calls s :
  ready s -> 0 < len s -> currentServer s < len s -> SelectMode s = RoundRobin ->
  exists rs s' l,
    SelectAll calls s = Done (rs, s', l) /\
    length rs = length calls /\
    currentServer s' = (currentServer s + Z.of_nat (length calls)) mod len s /\
    Servers s' = Servers s /\ len s' = len s.
Proof.
  intros Hready Hpos Hcur Hmode.
  destruct (round_robin_steps calls s Hready Hpos Hcur Hmode)
    as (rs & s' & l & E & Hrs & Hc & _ & HS & HL & _).
  eauto 10.
Qed.

(** X10. Round robin reaches every place within as many calls as there
    are addresses: for every place of the sequence, the cursor stands on
    it after some number of calls between one and the length. *)
Theorem round_robin_visits_every_place calls s place :
  ready s -> 0 < len s -> currentServer s < len s -> SelectMode s = RoundRobin ->
  Z.of_nat (length calls) = len s ->
  0 <= place < len s ->
  exists j rs s' l,
    (1 <= j <= length calls)%nat /\
    SelectAll (take j calls) s = Done (rs, s', l) /\
    currentServer s' = place.
Proof.
  intros Hready Hpos Hcur Hmode Hcalls Hplace.
  assert (0 <= currentServer s) as Hnonneg by (destruct Hready as (_ & _ & ? & _); done).
  set (d := if place <=? currentServer s
            then place - currentServer s + len s else place - currentServer s).
  assert (1 <= d <= len s) as Hd by (subst d; destruct (Z.leb_spec place (currentServer s)); lia).
  destruct (round_robin_steps (take (Z.to_nat d) calls) s Hready Hpos Hcur Hmode)
    as (rs & s' & l & E & _ & Hc & _).
  exists (Z.to_nat d), rs, s', l. split; [lia|]. split; [exact E|].
  rewrite Hc, length_take, Nat.min_l, Z2Nat.id by lia.
  subst d. destruct (Z.leb_spec place (currentServer s)).
  - replace (currentServer s + (place - currentServer s + len s))
      with (place + 1 * len s) by lia.
    rewrite Z_mod_plus_full. apply Z.mod_small. lia.
  - replace (currentServer s + (place - currentServer s)) with place by lia.
    apply Z.mod_small. lia.
Qed.

(** *** The watch loop *)

Lemma bind_ext {A B} (m : M A) (k1 k2 : A -> M B) s :
  (forall a s1, k1 a s1 = k2 a s1) -> bind m k1 s = bind m k2 s.
Proof.
  intros Hk. unfold bind. destruct (m s) as [[[a s1] l1]|]; [|done]. by rewrite Hk.
Qed.

(** X11. Once the stream of notifications reports an error the loop is
    over: whatever arrives after the error is never looked at. *)
Theorem watch_stops_at_the_first_error before res err answer later s :
  watch (before ++ ((res, Some err), answer) :: later) s = watch before s.
Proof.
  revert s. induction before as [|[[[res'|] [err'|]] answer'] before IH]; intros s; cbn;
    try done.
  - by destruct res.
  - apply bind_ext. intros _ s1. apply IH.
Qed.

Lemma silent_ret {A} (a : A) : silent (ret a).
Proof. intros s. by apply wp_ret. Qed.

Lemma silent_this : silent this.
Proof. intros s. by apply wp_this. Qed.

Lemma silent_modify f : silent (modify f).
Proof. intros s. by apply wp_modify. Qed.

Lemma silent_panic {A} msg : silent (@panic _ A msg).
Proof. intros s. apply wp_panic. Qed.

Lemma silent_emit e : isGet e = false -> silent (emit e).
Proof. intros He s. apply wp_emit. cbn. by rewrite He. Qed.

Lemma silent_bind {A B} (m : M A) (k : A -> M B) :
  silent m -> (forall a, silent (k a)) -> silent (bind m k).
Proof.
  intros Hm Hk s. apply wp_bind. eapply wp_mono; [apply Hm|].
  cbn. intros a s1 l1 H1. eapply wp_mono; [apply Hk|].
  cbn. intros c s2 l2 H2. by rewrite List.filter_app, H1, H2.
Qed.

Ltac silent_step :=
  lazymatch goal with
  | |- silent (bind _ _) => apply silent_bind; [|intros ?]
  | |- silent this => apply silent_this
  | |- silent (ret _) => apply silent_ret
  | |- silent (emit _) => apply silent_emit; reflexivity
  | |- silent (panic _) => apply silent_panic
  | |- silent (modify _) => apply silent_modify
  | |- silent (match ?x with _ => _ end) => destruct x
  | |- silent _ => assumption
  end.

Ltac silent_go := repeat silent_step.

Lemma silent_removeInactiveServers inactiveServers :
  silent (removeInactiveServers inactiveServers).
Proof.
  unfold removeInactiveServers. generalize (length inactiveServers).
  intros n. induction n as [|i IH]; cbn; [silent_go|].
  apply silent_bind; [|intros _; exact IH].
  unfold removeInactiveServer, index, remove_at, Close. silent_go.
Qed.

Lemma silent_createWeighted nodes : silent (createWeighted nodes).
Proof.
  unfold createWeighted.
  apply silent_bind; [silent_go|intros s].
  apply silent_bind; [silent_go|intros _].
  apply silent_bind; [|intros l; apply silent_removeInactiveServers].
  generalize (@nil nat). generalize 0%nat.
  induction nodes as [|n nodes IH]; intros i l; cbn; [silent_go|].
  apply silent_bind; [|intros l'; apply IH].
  unfold createWeightedNode, setWeighted, setWeights. silent_go.
Qed.

Lemma silent_pingWeighted_range ws : forall i, silent (pingWeighted_range i ws).
Proof.
  induction ws as [|w ws IH]; intros i; cbn; [silent_go|].
  apply silent_bind; [|intros _; apply IH].
  unfold pingWeighted, index. silent_go.
Qed.

(** A pull asks the registry once. *)
Lemma pullServers_one_get answer s :
  wp true (pullServers answer) (fun _ _ l => length (List.filter isGet l) = 1%nat) s.
Proof.
  unfold pullServers. wp_go.
  lazymatch goal with
  | |- wp _ ?m _ _ => assert (silent m) as Hm
  end.
  { pose proof silent_createWeighted. pose proof silent_pingWeighted_range.
    silent_go; try apply silent_createWeighted; try apply silent_pingWeighted_range. }
  eapply wp_mono; [apply Hm|]. cbn. intros _ _ l ->. done.
Qed.

Lemma watchNotification_gets res answer s :
  wp true (watchNotification res answer)
    (fun _ _ l =>
       length (List.filter isGet l) = if pulls (Action res) then 1%nat else 0%nat) s.
Proof.
  unfold watchNotification, pulls.
  destruct (String.eqb _ "expire"); cbn [orb].
  - wp_go. eapply wp_mono; [apply pullServers_one_get|].
    cbn. intros _ s1 l1 H1.
    assert (silent (match Node res with
                    | Some node =>
                        if negb (Dir node)
                        then s0 <- this ;;
                             modify (with_clientAndServer
                                       (delete (serverKey s0 node) (clientAndServer s0)))
                        else ret tt
                    | None => panic nil_dereference
                    end)) as Hrest by silent_go.
    eapply wp_mono; [apply Hrest|]. cbn. intros _ _ l2 H2.
    by rewrite List.filter_app, length_app, H1, H2.
  - destruct (String.eqb _ "set"); cbn [orb]; [apply pullServers_one_get|].
    destruct (String.eqb _ "update"); cbn [orb]; [apply pullServers_one_get|].
    destruct (String.eqb _ "delete"); [apply pullServers_one_get|].
    by apply wp_ret.
Qed.

(** X12. Over a stream of notifications without error, the watch loop
    asks the registry once for every notification tagged expire, set,
    update or delete, and not at all for the others: when the loop has
    gone through the stream, its effects hold as many registry gets as the
    stream holds such notifications. *)
Theorem watch_pulls_once_per_change (items : list (client_Response * GetAnswer)) s s' l :
  watch (map (fun item => ((Some item.1, None), item.2)) items) s = Done (tt, s', l) ->
  length (List.filter isGet l)
  = length (List.filter (fun item => pulls (Action item.1)) items).
Proof.
  revert s l. induction items as [|[res answer] items IH]; intros s l E; cbn in E.
  - by injection E as <- <-.
  - apply bind_Done in E as ([] & s1 & l1 & l2 & E1 & E2 & ->).
    pose proof (wp_Done _ _ _ _ _ _ _ (watchNotification_gets res answer s) E1) as H1.
    apply IH in E2. cbn [List.filter]. cbn [fst].
    rewrite List.filter_app, length_app, H1, E2.
    by destruct (pulls (Action res)).
Qed.

(** *** [Select] by consistent hash *)

Lemma index_outside {A} (l : list A) i s :
  ~ (0 <= i < Z.of_nat (length l)) -> index l i s = Panic index_out_of_range.
Proof.
  intros Hi. unfold index.
  destruct (Z.ltb_spec i 0); [done|].
  destruct (Z.leb_spec (Z.of_nat (length l)) i); [done|lia].
Qed.

(** X13. In the consistent-hash mode [Select] hashes with the function the
    caller has set, or with [JumpConsistentHash] when none is set, and
    keeps that function in the selector. On a selector as a pull leaves
    it, a hash inside the sequence makes it serve the address at that
    place, from the cache or by one dial; a hash outside the sequence
    makes it panic with an index out of range. *)
Theorem Select_by_consistent_hash dial rnd options s :
  ready s -> 0 < len s -> SelectMode s = ConsistentHash ->
  let hash := default JumpConsistentHash (HashServiceAndArgs s) in
  let i := hash (len s) options in
  let s1 := with_currentServer i (with_HashServiceAndArgs (Some hash) s) in
  (0 <= i < len s ->
   exists server,
     Servers s !! Z.to_nat i = Some server /\
     Select dial rnd options s = served dial server s1) /\
  (~ (0 <= i < len s) -> Select dial rnd options s = Panic index_out_of_range).
Proof.
  intros Hready Hpos Hmode hash i s1.
  assert (Select dial rnd options s
          = bind (index (Servers s) i) (fun server => getCachedClient dial server) s1) as E.
  { unfold Select. unfold bind at 1. cbn [this].
    destruct (Z.eqb_spec (len s) 0); [lia|]. rewrite Hmode.
    unfold bind at 1. cbn [modify]. unfold bind at 1. cbn [modify].
    fold hash. fold i. fold s1.
    by destruct (bind (index (Servers s) i) _ s1) as [[[r s'] l]|]. }
  split.
  - intros Hi. destruct (ready_index s i Hready Hi) as (server & Hsv & Hsep & Hindex).
    exists server. split; [exact Hsv|].
    rewrite E, Hindex. unfold bind at 1. cbn [ret].
    rewrite getCachedClient_served by done.
    by destruct (served dial server s1) as [[[r s'] l]|].
  - intros Hi. rewrite E. apply bind_Panic. apply index_outside.
    destruct Hready as (Hlen & _). by rewrite <- Hlen.
Qed.

(** *** A pull repeated *)

Lemma listed_settings s s' nodes :
  same_settings s s' -> listed s' nodes = listed s nodes.
Proof.
  intros H. unfold listed.
  induction nodes as [|n nodes IH]; [done|]. cbn.
  rewrite (excluded_settings s s') by done.
  destruct (excluded s n); cbn; [done|].
  by rewrite IH, (serverKey_BasePath s s').
Qed.

Lemma kept_settings s s' nodes :
  same_settings s s' -> kept s' nodes = kept s nodes.
Proof.
  intros H. unfold kept.
  induction nodes as [|n nodes IH]; [done|]. cbn.
  rewrite (excluded_settings s s') by done. by rewrite IH.
Qed.

Lemma dropped_settings s s' nodes :
  same_settings s s' -> dropped s' nodes = dropped s nodes.
Proof.
  intros H. unfold dropped.
  induction nodes as [|n nodes IH]; [done|]. cbn.
  rewrite (excluded_settings s s') by done. by rewrite IH.
Qed.

Lemma recorded_settings s s' nodes : forall m,
  same_settings s s' -> recorded s' nodes m = recorded s nodes m.
Proof.
  intros m H. unfold recorded. revert m.
  induction nodes as [|n nodes IH]; intros m; cbn; [done|].
  rewrite (serverKey_BasePath s s') by done. apply IH.
Qed.

Lemma recorded_lookup_listed s nodes : forall m m' key,
  key ∈ map (serverKey s) nodes ->
  recorded s nodes m !! key = recorded s nodes m' !! key.
Proof.
  induction nodes as [|n nodes IH]; intros m m' key Hk; [by apply elem_of_nil in Hk|].
  cbn. fold (recorded s nodes (<[serverKey s n := Value n]> m)).
  fold (recorded s nodes (<[serverKey s n := Value n]> m')).
  destruct (decide (key ∈ map (serverKey s) nodes)) as [Hin|Hout]; [by apply IH|].
  cbn in Hk. apply elem_of_cons in Hk as [->|Hk]; [|done].
  rewrite !recorded_lookup_other by done. by rewrite !lookup_insert_eq.
Qed.

Lemma recorded_twice s nodes m :
  recorded s nodes (recorded s nodes m) = recorded s nodes m.
Proof.
  apply map_eq. intros key.
  destruct (decide (key ∈ map (serverKey s) nodes)) as [Hin|Hout].
  - by apply recorded_lookup_listed.
  - by rewrite recorded_lookup_other.
Qed.

(** X14. Outside the ping-weighted mode a pull is idempotent: when the
    registry gives the same listing of servers again, the second pull
    asks the registry, closes nothing, and leaves the addresses, the
    weighted records, the length, the cursor, the metadata and the
    connection of every address as the first pull left them. *)
Theorem pull_again_changes_nothing answer s s' l :
  children answer <> [] ->
  SelectMode s <> WeightedICMP ->
  pullServers answer s = Done (tt, s', l) ->
  exists s'',
    pullServers answer s' = Done (tt, s'', [EvGet (BasePath s')]) /\
    Servers s'' = Servers s' /\ WeightedServers s'' = WeightedServers s' /\
    len s'' = len s' /\ currentServer s'' = currentServer s' /\
    metadata s'' = metadata s' /\
    forall key, cached (clientAndServer s'') key = cached (clientAndServer s') key.
Proof.
  intros Hne Hmode E.
  pose proof (wp_pullServers true answer s (or_introl eq_refl) (or_intror Hne)) as Hold.
  apply (wp_Done _ _ _ _ _ _ _ Hold) in E as Hframe.
  destruct Hframe as (_ & Hset & HM & _).
  pose proof (wp_pullServers_builds true answer s Hne) as Hnew.
  apply (wp_Done _ _ _ _ _ _ _ (Hnew ltac:(done))) in E as
    (HS & HW & HL & HC & closes & (Ha & _) & _).
  rewrite decide_False in HW by done.
  assert (SelectMode s' <> WeightedICMP) as Hmode'.
  { destruct Hset as (_ & _ & ->). done. }
  destruct (pullServers_builds answer s' Hne) as
    (s'' & l' & E' & HS' & HW' & HL' & HC' & closes' & (Ha' & Hb' & Hc' & Hd') & Hl'); [done|].
  rewrite decide_False in HW' by done. rewrite decide_False in Hl' by done.
  rewrite (listed_settings s s') in HS' by done.
  rewrite (kept_settings s s') in HW' by done.
  rewrite (dropped_settings s s') in Ha' by done.
  rewrite (dropped_settings s s') in Hb' by done.
  rewrite (dropped_settings s s') in Hd' by done.
  assert (closes' = []) as ->.
  { destruct closes' as [|e closes']; [done|].
    destruct (Hc' e) as [h ->]; [apply elem_of_cons; by left|].
    assert (EvClose h ∈ EvClose h :: closes') as Hin by (apply elem_of_cons; by left).
    apply Hd' in Hin as (key & Hkey & Hcached).
    rewrite <- (map_ext (serverKey s) (serverKey s')) in Hkey
      by (intros n; symmetry; by apply serverKey_BasePath).
    rewrite (Ha key) in Hcached by done. done. }
  exists s''. rewrite app_nil_r in Hl'. subst l'.
  split; [exact E'|]. split; [congruence|].
  split.
  { rewrite HW', HW. apply map_ext. intros n. f_equal. by apply declared_settings. }
  assert (len s'' = len s') as HLL by congruence.
  split; [exact HLL|]. split.
  { rewrite HC', HLL, HC. destruct (0 <? len s') eqn:Hpos; [|done].
    apply Z.rem_rem. apply Z.ltb_lt in Hpos. lia. }
  split.
  { pose proof (wp_pullServers true answer s' (or_introl eq_refl) (or_intror Hne)) as Hold'.
    apply (wp_Done _ _ _ _ _ _ _ Hold') in E' as (_ & _ & -> & _).
    rewrite HM.
    rewrite (recorded_settings s s') by done. apply recorded_twice. }
  intros key.
  destruct (decide (key ∈ map (serverKey s') (dropped s (children answer)))) as [Hin|Hout].
  - rewrite (Ha' key Hin). symmetry. apply Ha.
    rewrite <- (map_ext (serverKey s) (serverKey s')) in Hin
      by (intros n; symmetry; by apply serverKey_BasePath).
    exact Hin.
  - unfold cached. by rewrite (Hb' key Hout).
Qed.

End Reasoning.


(** ** The selector at work on the sample *)

Example serving_reachable :
  after ((pullServers (listing [leaf key_a ""; leaf key_b ""]) ;;
          Select (connects 2%nat) 0 [] ;;
          Select (connects 1%nat) 0 []) (fresh RoundRobin)) = Some serving.
Proof. reflexivity. Qed.

Example unseparated_reachable :
  after (pullServers (listing [leaf "/rpcx/Arith/10.0.0.1:8972" ""]) (fresh RoundRobin))
  = Some unseparated.
Proof. reflexivity. Qed.

Example uncharted_reachable :
  after (pullServers (listing [leaf key_a "weight=2"]) (fresh Closest)) = Some uncharted.
Proof. reflexivity. Qed.

(** A record with [state=inactive] is excluded from both sequences, which
    stay aligned; its connection is closed and dropped from the cache. *)
Example inactive_record_is_excluded :
  let out := pullServers (listing [leaf key_a "weight=3&state=inactive";
                                   leaf key_b "weight=7"]) serving in
  (Servers <$> after out) = Some [server_b] /\
  (WeightedServers <$> after out) = Some [Some (mkWeighted server_b 7 7)] /\
  (len <$> after out) = Some 1 /\
  effects out = [EvGet "/rpcx/Arith"; EvClose 1%nat].
Proof. cbn zeta. repeat apply conj; reflexivity. Qed.

(** A server that its state excludes from the server list keeps its
    metadata and is still what [Select] picks in the closest mode. *)
Example excluded_server_is_still_the_closest :
  let out := (pullServers (listing [leaf key_a "latitude=3&longitude=4";
                                    leaf key_b "latitude=1&longitude=1&state=inactive"]) ;;
              s <- this ;;
              r <- Select (connects 7%nat) 0 [] ;;
              ret (Servers s, r)) (fresh Closest) in
  result out = Some ([server_a], (Some 7%nat, None)) /\
  effects out = [EvGet "/rpcx/Arith"; EvDial "tcp" "10.0.0.2:8972"].
Proof. cbn zeta. repeat apply conj; reflexivity. Qed.

(** C1, where the code departs from it. The registry lists two servers,
    both connected; then the listing comes back empty. [pullServers]
    empties the connection cache and nothing else: the server set and the
    length stay, and the next [Select] does not answer "No available
    service" but dials a server that is gone. *)
Theorem empty_listing_leaves_the_server_set :
  let s' := with_clientAndServer ∅ serving in
  pullServers (listing []) serving = Done (tt, s', [EvGet "/rpcx/Arith"]) /\
  clientAndServer s' = ∅ /\
  Servers s' = [server_a; server_b] /\
  len s' = 2 /\
  result (Select (connects 7%nat) 0 [] s') = Some (Some 7%nat, None) /\
  effects (Select (connects 7%nat) 0 [] s') = [EvDial "tcp" "10.0.0.2:8972"].
Proof. cbn zeta. repeat apply conj; reflexivity. Qed.

(** C2, where the code departs from it. One server is listed and its
    metadata has no coordinates: [Select] in the closest mode gets an
    empty slice from [getClosestServer], hands its length 0 to [Intn] and
    panics; no error is returned. *)
Theorem closest_without_coordinates_panics :
  len uncharted = 1 /\
  getClosestServer (Latitude uncharted) (Longitude uncharted) (metadata uncharted) = [] /\
  Select (connects 7%nat) 0 [] uncharted = Panic invalid_Intn.
Proof. cbn zeta. repeat apply conj; reflexivity. Qed.

(** C3, where the code departs from it. The cache holds two connections
    and the failed one is not the entry the range visits first:
    [HandleFailedClient] closes the failed connection and leaves its entry
    in the cache, so the next [getCachedClient] for that address returns
    the closed connection and dials nothing. *)
Theorem failed_client_behind_another_stays_cached :
  let order := [(server_a, Some 1%nat); (server_b, Some 2%nat)] in
  order ≡ₚ map_to_list (clientAndServer serving) /\
  HandleFailedClient order (Some 2%nat) serving = Done (tt, serving, [EvClose 2%nat]) /\
  getCachedClient (connects 9%nat) server_b serving = Done ((Some 2%nat, None), serving, []).
Proof.
  cbn zeta. split; [|split].
  - assert (map_to_list (clientAndServer serving)
            = [(server_a, Some 1%nat); (server_b, Some 2%nat)]) as ->
      by reflexivity.
    done.
  - reflexivity.
  - reflexivity.
Qed.

(** C4 as it is stated fails: a notification tagged create runs no pull. *)
Lemma create_notification_runs_no_pull :
  ~ (forall res answer s s' l,
       Action res ∈ ["create"; "set"; "update"; "delete"; "expire"] ->
       watchNotification res answer s = Done (tt, s', l) ->
       EvGet (BasePath s) ∈ l).
Proof.
  intros H.
  specialize (H (mkResponse "create" (Some (leaf key_a ""))) (listing [leaf key_a ""])
                serving serving []).
  apply elem_of_nil in H; [done| |reflexivity].
  rewrite !elem_of_cons. by left.
Qed.

(** C5, where the code departs from it. The node of a connected server
    expires: the turn of the watch loop deletes the entry of the address
    from the cache and closes nothing, so the connection stays open with
    no entry left to reach it. *)
Theorem expired_connection_is_deleted_but_not_closed :
  let res := mkResponse "expire" (Some (leaf key_a "")) in
  let out := watchNotification res (listing [leaf key_b ""]) serving in
  cached (clientAndServer serving) server_a = Some 1%nat /\
  after out = Some (with_clientAndServer (delete server_a (clientAndServer serving_b)) serving_b) /\
  (forall s', after out = Some s' -> clientAndServer s' !! server_a = None) /\
  effects out = [EvGet "/rpcx/Arith"] /\
  EvClose 1%nat ∉ effects out.
Proof.
  cbn zeta.
  assert (effects (watchNotification (mkResponse "expire" (Some (leaf key_a "")))
                     (listing [leaf key_b ""]) serving) = [EvGet "/rpcx/Arith"]) as ->
    by reflexivity.
  assert (after (watchNotification (mkResponse "expire" (Some (leaf key_a "")))
                   (listing [leaf key_b ""]) serving)
          = Some (with_clientAndServer (delete server_a (clientAndServer serving_b)) serving_b))
    as -> by reflexivity.
  split; [reflexivity|]. split; [done|]. split.
  - intros s' [= <-]. cbn. apply lookup_delete_eq.
  - split; [done|]. rewrite elem_of_cons, elem_of_nil. intros [?|[]]. done.
Qed.

(** C8 as it is stated fails: a failed dial returns a nil handle, the nil
    handle is stored, and the next call for the address dials again. *)
Lemma failed_dial_is_dialed_again :
  ~ (forall dial server s r s' l,
       clientAndServer s !! server = None ->
       getCachedClient dial server s = Done (r, s', l) ->
       clientAndServer s' !! server = Some r.1 /\
       effects (getCachedClient dial server s') = []).
Proof.
  intros H.
  destruct (H refused server_a (fresh RoundRobin) (None, Some "connection refused")
              (with_clientAndServer (<[server_a := None]> ∅) (fresh RoundRobin))
              [EvDial "tcp" "10.0.0.1:8972"]) as [_ Hno].
  - reflexivity.
  - reflexivity.
  - vm_compute in Hno. discriminate Hno.
Qed.

(** C9, where the code departs from it. A server is registered under a key
    without the separator: [getCachedClient], reached through [Select],
    and [AllClients] index the second part of the split and panic; no
    error is returned, and nothing is dialed. *)
Theorem key_without_separator_panics :
  Servers unseparated = [bare_key] /\
  Split bare_key at_sign = [bare_key] /\
  getCachedClient (connects 7%nat) bare_key unseparated = Panic index_out_of_range /\
  Select (connects 7%nat) 0 [] unseparated = Panic index_out_of_range /\
  AllClients (connects 7%nat) unseparated = Panic index_out_of_range.
Proof. cbn zeta. repeat apply conj; reflexivity. Qed.

(** ** The properties at work *)

(** C6 on the sample: the get times out while two servers are served. *)
Lemma failed_pull_keeps_server_set_witness :
  failed (None, Some "context deadline exceeded") /\
  (pullServers (None, Some "context deadline exceeded") serving
   = Done (tt, serving, [EvGet (BasePath serving)]) /\
   forall s' l, pullServers (None, Some "context deadline exceeded") serving = Done (tt, s', l) ->
     Servers s' = Servers serving /\ WeightedServers s' = WeightedServers serving /\
     len s' = len serving /\ currentServer s' = currentServer serving /\
     clientAndServer s' = clientAndServer serving /\
     forall dial rnd options,
       Select dial rnd options s' = Select dial rnd options serving).
Proof.
  split; [exact I|].
  apply (failed_pull_keeps_server_set (None, Some "context deadline exceeded") serving).
  exact I.
Defined.

(** C7 on the sample: a listing of two servers, the first one inactive. *)
Lemma pull_keeps_sequences_aligned_witness :
  let answer := listing [leaf key_a "weight=3&state=inactive"; leaf key_b "weight=7"] in
  (aligned serving \/ children answer <> []) /\
  ((forall s' l, pullServers answer serving = Done (tt, s', l) ->
      length (WeightedServers s') = length (Servers s') /\
      (forall i sv, Servers s' !! i = Some sv ->
         exists w, WeightedServers s' !! i = Some (Some w) /\ Server w = sv) /\
      (children answer <> [] -> Servers s' = listed serving (children answer))) /\
   (SelectMode serving <> WeightedICMP -> answer <> (None, None) ->
      exists s' l, pullServers answer serving = Done (tt, s', l))).
Proof.
  cbn zeta. split.
  - right. discriminate.
  - apply (pull_keeps_sequences_aligned
             (listing [leaf key_a "weight=3&state=inactive"; leaf key_b "weight=7"]) serving).
    right. discriminate.
Defined.

(** C8 on the sample: a refused dial from a fresh selector, then a second
    call that connects. *)
Lemma getCachedClient_stores_the_dial_witness :
  cached (clientAndServer (fresh RoundRobin)) server_a = None /\
  Split server_a at_sign = ["tcp"; "10.0.0.1:8972"] /\
  let s' := with_clientAndServer
              (<[server_a := (refused "tcp" "10.0.0.1:8972").1]>
                 (clientAndServer (fresh RoundRobin))) (fresh RoundRobin) in
  getCachedClient refused server_a (fresh RoundRobin)
  = Done (refused "tcp" "10.0.0.1:8972", s', [EvDial "tcp" "10.0.0.1:8972"]) /\
  clientAndServer s' !! server_a = Some (refused "tcp" "10.0.0.1:8972").1 /\
  match (refused "tcp" "10.0.0.1:8972").1 with
  | Some h => getCachedClient (connects 3%nat) server_a s' = Done ((Some h, None), s', [])
  | None =>
      getCachedClient (connects 3%nat) server_a s'
      = Done (connects 3%nat "tcp" "10.0.0.1:8972",
              with_clientAndServer
                (<[server_a := (connects 3%nat "tcp" "10.0.0.1:8972").1]> (clientAndServer s')) s',
              [EvDial "tcp" "10.0.0.1:8972"])
  end.
Proof.
  split; [reflexivity|]. split; [reflexivity|].
  apply (getCachedClient_stores_the_dial refused (connects 3%nat) server_a
           "tcp" "10.0.0.1:8972" [] (fresh RoundRobin)); reflexivity.
Defined.

(** C10 on the sample: a pull that lists [server_b] alone keeps the
    metadata of [server_a]. *)
Lemma metadata_entries_are_never_deleted_witness :
  let op := OpPullServers (listing [leaf key_b ""]) in
  run op serving = Done (tt, serving_b, [EvGet "/rpcx/Arith"]) /\
  (dom (metadata serving) ⊆ dom (metadata serving_b) /\
   (forall inactiveServers,
      op = OpRemoveInactiveServers inactiveServers -> metadata serving_b = metadata serving) /\
   (forall answer n,
      op = OpPullServers answer -> n ∈ children answer ->
      is_Some (metadata serving_b !! serverKey serving n))).
Proof.
  cbn zeta.
  assert (run (OpPullServers (listing [leaf key_b ""])) serving
          = Done (tt, serving_b, [EvGet "/rpcx/Arith"])) as E by reflexivity.
  split; [exact E|].
  exact (metadata_entries_are_never_deleted _ _ _ _ E).
Defined.

(** ** More of the selector at work *)


(** X2 on the sample: a declared weight, an inactive record and a weight
    that is no integer. *)
Lemma pull_builds_declared_weights_witness :
  let answer := listing [leaf key_a "weight=3"; leaf key_b "weight=heavy"] in
  children answer <> [] /\ SelectMode serving <> WeightedICMP /\
  exists s' l,
    pullServers answer serving = Done (tt, s', l) /\
    WeightedServers s'
    = map (fun n => Some (mkWeighted (serverKey serving n) (declaredWeight n) (declaredWeight n)))
        (List.filter (fun n => negb (excluded serving n)) (children answer)).
Proof.
  cbn zeta. split; [discriminate|]. split; [discriminate|].
  apply (pull_builds_declared_weights
           (listing [leaf key_a "weight=3"; leaf key_b "weight=heavy"]) serving);
    discriminate.
Defined.


(** X4 on the sample: the first of two connected servers turns inactive. *)
Lemma pull_closes_inactive_connections_witness :
  let answer := listing [leaf key_a "state=inactive"; leaf key_b ""] in
  children answer <> [] /\
  (SelectMode serving = WeightedICMP ->
   Forall (fun server => contains server at_sign = true) (listed serving (children answer))) /\
  exists s' l,
    pullServers answer serving = Done (tt, s', l) /\
    (forall n, n ∈ children answer -> excluded serving n = true ->
       cached (clientAndServer s') (serverKey serving n) = None) /\
    (forall key,
       (forall n, n ∈ children answer -> excluded serving n = true ->
                  serverKey serving n <> key) ->
       clientAndServer s' !! key = clientAndServer serving !! key) /\
    (forall h, EvClose h ∈ l <->
       exists n, n ∈ children answer /\ excluded serving n = true /\
                 cached (clientAndServer serving) (serverKey serving n) = Some h).
Proof.
  cbn zeta. split; [discriminate|]. split; [intros H; discriminate H|].
  apply (pull_closes_inactive_connections
           (listing [leaf key_a "state=inactive"; leaf key_b ""]) serving).
  - discriminate.
  - intros H. discriminate H.
Defined.

(** X5 on the sample: a pull that lists [server_b] alone. *)
Lemma pull_records_metadata_witness :
  let answer := listing [leaf key_b ""] in
  NoDup (map (serverKey serving) (children answer)) /\
  pullServers answer serving = Done (tt, serving_b, [EvGet "/rpcx/Arith"]) /\
  (forall n, n ∈ children answer -> metadata serving_b !! serverKey serving n = Some (Value n)) /\
  (forall key, key ∉ map (serverKey serving) (children answer) ->
     metadata serving_b !! key = metadata serving !! key).
Proof.
  cbn zeta.
  assert (NoDup (map (serverKey serving) (children (listing [leaf key_b ""])))) as Hnd
    by apply NoDup_singleton.
  assert (pullServers (listing [leaf key_b ""]) serving
          = Done (tt, serving_b, [EvGet "/rpcx/Arith"])) as E by reflexivity.
  split; [exact Hnd|]. split; [exact E|].
  exact (pull_records_metadata _ _ _ _ Hnd E).
Defined.

(** X6 on the sample: the failed connection is the one visited first. *)
Lemma HandleFailedClient_closes_once_witness :
  let order := [(server_a, Some 1%nat); (server_b, Some 2%nat)] in
  order ≡ₚ map_to_list (clientAndServer serving) /\
  exists cache',
    HandleFailedClient order (Some 1%nat) serving
    = Done (tt, with_clientAndServer cache' serving,
            if decide (clientAndServer serving = ∅) then [] else [EvClose 1%nat]) /\
    (cache' = clientAndServer serving \/
     exists k, clientAndServer serving !! k = Some (Some 1%nat) /\
               cache' = delete k (clientAndServer serving)).
Proof.
  cbn zeta.
  assert ([(server_a, Some 1%nat); (server_b, Some 2%nat)]
          ≡ₚ map_to_list (clientAndServer serving)) as Horder.
  { assert (map_to_list (clientAndServer serving)
            = [(server_a, Some 1%nat); (server_b, Some 2%nat)]) as -> by reflexivity.
    reflexivity. }
  split; [exact Horder|].
  exact (HandleFailedClient_closes_once _ 1%nat serving Horder).
Defined.

(** X7 on the sample: two servers, every dial refused. *)
Lemma AllClients_dials_every_server_witness :
  Forall (fun server => contains server at_sign = true) (Servers serving) /\
  AllClients refused serving
  = Done (dialed refused (Servers serving), serving, dialing refused (Servers serving)).
Proof.
  assert (Forall (fun server => contains server at_sign = true) (Servers serving)) as Hkeys
    by (cbv; repeat constructor).
  split; [exact Hkeys|]. exact (AllClients_dials_every_server refused serving Hkeys).
Defined.

Lemma serving_ready : ready serving.
Proof.
  split; [reflexivity|]. split; [reflexivity|]. split; [discriminate|].
  cbv. repeat constructor.
Defined.

(** X8 on the sample: round robin from the first of two places. *)
Lemma Select_serves_the_chosen_address_witness :
  ready serving /\ 0 < len serving /\ currentServer serving < len serving /\
  ((SelectMode serving = RandomSelect /\ 1 = 5 mod len serving) \/
   (SelectMode serving = RoundRobin /\ 1 = (currentServer serving + 1) mod len serving)) /\
  (0 <= 1 < len serving /\
   exists server,
     Servers serving !! Z.to_nat 1 = Some server /\
     Select (connects 7%nat) 5 [] serving
     = served (connects 7%nat) server (with_currentServer 1 serving) /\
     forall r s' l, Select (connects 7%nat) 5 [] serving = Done (r, s', l) ->
       ready s' /\ currentServer s' = 1 /\ Servers s' = Servers serving /\
       len s' = len serving).
Proof.
  assert ((SelectMode serving = RandomSelect /\ 1 = 5 mod len serving) \/
          (SelectMode serving = RoundRobin /\ 1 = (currentServer serving + 1) mod len serving))
    as Hmode by (right; split; reflexivity).
  split; [exact serving_ready|]. split; [reflexivity|]. split; [reflexivity|].
  split; [exact Hmode|].
  exact (Select_serves_the_chosen_address (connects 7%nat) 5 [] serving 1
           serving_ready eq_refl eq_refl Hmode).
Defined.

(** X9 on the sample: three calls over two addresses. *)
Lemma round_robin_advances_the_cursor_witness :
  let calls := [(refused, 0, []); (connects 7%nat, 0, []); (refused, 0, [])] in
  ready serving /\ 0 < len serving /\ currentServer serving < len serving /\
  SelectMode serving = RoundRobin /\
  exists rs s' l,
    SelectAll calls serving = Done (rs, s', l) /\
    length rs = length calls /\
    currentServer s' = (currentServer serving + Z.of_nat (length calls)) mod len serving /\
    Servers s' = Servers serving /\ len s' = len serving.
Proof.
  cbn zeta.
  split; [exact serving_ready|]. split; [reflexivity|]. split; [reflexivity|].
  split; [reflexivity|].
  exact (round_robin_advances_the_cursor
           [(refused, 0, []); (connects 7%nat, 0, []); (refused, 0, [])]
           serving serving_ready eq_refl eq_refl eq_refl).
Defined.

(** X10 on the sample: the first place is reached again after two calls. *)
Lemma round_robin_visits_every_place_witness :
  let calls := [(refused, 0, []); (connects 7%nat, 0, [])] in
  ready serving /\ 0 < len serving /\ currentServer serving < len serving /\
  SelectMode serving = RoundRobin /\
  Z.of_nat (length calls) = len serving /\ 0 <= 0 < len serving /\
  exists j rs s' l,
    (1 <= j <= length calls)%nat /\
    SelectAll (take j calls) serving = Done (rs, s', l) /\
    currentServer s' = 0.
Proof.
  cbn zeta.
  assert (0 <= 0 < len serving) as Hplace by (split; [discriminate|reflexivity]).
  split; [exact serving_ready|]. split; [reflexivity|]. split; [reflexivity|].
  split; [reflexivity|]. split; [reflexivity|]. split; [exact Hplace|].
  exact (round_robin_visits_every_place
           [(refused, 0, []); (connects 7%nat, 0, [])] serving 0 serving_ready
           eq_refl eq_refl eq_refl eq_refl Hplace).
Defined.

(** X12 on the sample: a set notification and a create notification. *)
Lemma watch_pulls_once_per_change_witness :
  let items := [(mkResponse "set" (Some (leaf key_b "")), listing [leaf key_b ""]);
                (mkResponse "create" (Some (leaf key_a "")), listing [leaf key_b ""])] in
  watch (map (fun item => ((Some item.1, None), item.2)) items) serving
  = Done (tt, serving_b, [EvGet "/rpcx/Arith"]) /\
  length (List.filter isGet [EvGet "/rpcx/Arith"])
  = length (List.filter (fun item => pulls (Action item.1)) items).
Proof.
  cbn zeta.
  assert (watch (map (fun item : client_Response * GetAnswer => ((Some item.1, None), item.2))
                   [(mkResponse "set" (Some (leaf key_b "")), listing [leaf key_b ""]);
                    (mkResponse "create" (Some (leaf key_a "")), listing [leaf key_b ""])])
            serving
          = Done (tt, serving_b, [EvGet "/rpcx/Arith"])) as E by reflexivity.
  split; [exact E|].
  exact (watch_pulls_once_per_change _ _ _ _ E).
Defined.

(** X13 on the sample: no hash is set, and the stand-in hash gives the
    first place. *)
Lemma Select_by_consistent_hash_witness :
  let s := with_SelectMode ConsistentHash serving in
  ready s /\ 0 < len s /\ SelectMode s = ConsistentHash /\
  (let hash := default JumpConsistentHash (HashServiceAndArgs s) in
   let i := hash (len s) [] in
   let s1 := with_currentServer i (with_HashServiceAndArgs (Some hash) s) in
   (0 <= i < len s ->
    exists server,
      Servers s !! Z.to_nat i = Some server /\
      Select (connects 7%nat) 0 [] s = served (connects 7%nat) server s1) /\
   (~ (0 <= i < len s) -> Select (connects 7%nat) 0 [] s = Panic index_out_of_range)).
Proof.
  cbn zeta.
  assert (ready (with_SelectMode ConsistentHash serving)) as Hready by exact serving_ready.
  split; [exact Hready|]. split; [reflexivity|]. split; [reflexivity|].
  exact (Select_by_consistent_hash (connects 7%nat) 0 []
           (with_SelectMode ConsistentHash serving) Hready eq_refl eq_refl).
Defined.

(** X14 on the sample: the listing that holds [server_b] alone, pulled
    twice. *)
Lemma pull_again_changes_nothing_witness :
  let answer := listing [leaf key_b ""] in
  children answer <> [] /\ SelectMode serving <> WeightedICMP /\
  pullServers answer serving = Done (tt, serving_b, [EvGet "/rpcx/Arith"]) /\
  exists s'',
    pullServers answer serving_b = Done (tt, s'', [EvGet (BasePath serving_b)]) /\
    Servers s'' = Servers serving_b /\ WeightedServers s'' = WeightedServers serving_b /\
    len s'' = len serving_b /\ currentServer s'' = currentServer serving_b /\
    metadata s'' = metadata serving_b /\
    forall key, cached (clientAndServer s'') key = cached (clientAndServer serving_b) key.
Proof.
  cbn zeta.
  assert (children (listing [leaf key_b ""]) <> []) as Hne by discriminate.
  assert (SelectMode serving <> WeightedICMP) as Hmode by discriminate.
  assert (pullServers (listing [leaf key_b ""]) serving
          = Done (tt, serving_b, [EvGet "/rpcx/Arith"])) as E by reflexivity.
  split; [exact Hne|]. split; [exact Hmode|]. split; [exact E|].
  exact (pull_again_changes_nothing _ _ _ _ Hne Hmode E).
Defined.
